(** * CuPy backend shim: batched LAPACK dispatchers and the soft-link loader

    A shallow embedding of

    - [cupy_backends/cupy_lapack.h]: the loop-based batched dispatchers
      [gesvd_loop], [geqrf_loop] and [orgqr_loop], once as compiled for CUDA
      (the [#if !defined(CUPY_USE_HIP)] branch) and once as compiled for HIP
      (the [#else] branch);
    - [cupy_backends/cuda/_softlink.pyx]: [get_hipfuncname], the [SoftLink]
      class and the two failing stubs.

    The vendor libraries (cuSOLVER, hipSOLVER), the dynamic loader behind
    [ctypes.CDLL] and the hipify name table are external: they enter the
    model as interfaces whose behaviour is arbitrary. *)

From Stdlib Require Import ZArith List Lia Ascii String.
From stdpp Require Import base option list gmap strings.

Local Open Scope Z_scope.

(* ===================================================================== *)
(** * Part I. C data: integers, element types, typed pointers            *)
(* ===================================================================== *)

(** [int] is 32 bits wide.  Signed overflow is undefined in C++; the model
    takes the two's-complement result that the targets of this header
    produce, and every statement that needs the mathematical product says
    so through [int_range]. *)
Definition int_min : Z := - 2 ^ 31.
Definition int_max : Z := 2 ^ 31 - 1.

Definition int_range (z : Z) : Prop := int_min <= z <= int_max.

Definition int_wrap (z : Z) : Z := (z + 2 ^ 31) mod 2 ^ 32 - 2 ^ 31.

Definition int_mul (a b : Z) : Z := int_wrap (a * b).

(** The element types the templates are instantiated at.  [complex64] is
    [cuComplex] on CUDA and [hipFloatComplex] on HIP, [complex128] is
    [cuDoubleComplex] and [hipDoubleComplex]. *)
Inductive elem : Type := float | double | complex64 | complex128.

Inductive ctype : Type :=
| c_int
| c_elem (e : elem).

Definition sizeof (t : ctype) : Z :=
  match t with
  | c_int => 4
  | c_elem float => 4
  | c_elem double => 8
  | c_elem complex64 => 8
  | c_elem complex128 => 16
  end.

(** A typed pointer: the [intptr_t] it was cast from and the number of
    elements it has been advanced by since. *)
Record ptr : Type := Ptr { pointee : ctype; base : Z; offset : Z }.

Definition reinterpret_cast (t : ctype) (a : Z) : ptr := Ptr t a 0.

(** [p += n] *)
Definition ptr_add (p : ptr) (n : Z) : ptr :=
  Ptr (pointee p) (base p) (offset p + n).

(** The byte address a pointer designates. *)
Definition address (p : ptr) : Z := base p + sizeof (pointee p) * offset p.

(** A local variable of status type: declared without initialiser, then
    assigned in the loop body. *)
Inductive local : Type :=
| Uninit
| Init (z : Z).

(* ===================================================================== *)
(** * Part II. The loop shared by the dispatchers                        *)
(* ===================================================================== *)

(** Every dispatcher runs
<<
    for (int i=0; i<batch_size; i++) {
        status = func(...current pointers...);
        if (status != 0) break;
        ...advance the pointers...
    }
    return status;
>>
    [call] builds the argument list from the loop variables, [advance] is
    the pointer arithmetic after a successful call, [remaining] counts the
    iterations for which [i < batch_size] still holds.  The result is the
    world the vendor calls leave behind, the calls made in order, and the
    value of [status] at [return]. *)
Section BatchLoop.
Context {World Vars Args : Type}.
Variable func : World -> Args -> World * Z.
Variable call : Vars -> Args.
Variable advance : Vars -> Vars.

Fixpoint batch_loop (remaining : nat) (w : World) (v : Vars) (status : local)
  : World * list Args * local :=
  match remaining with
  | O => (w, [], status)
  | S r =>
      let '(w', st) := func w (call v) in
      if st =? 0
      then let '(w'', calls, ret) := batch_loop r w' (advance v) (Init st) in
           (w'', call v :: calls, ret)
      else (w', [call v], Init st)
  end.

(** The arguments of batch item [j], were the loop to reach it. *)
Definition item (v0 : Vars) (j : nat) : Args := call (Nat.iter j advance v0).

(** The world in which item [j] is called when all items before it have
    been called. *)
Fixpoint world_before (w0 : World) (v0 : Vars) (j : nat) : World :=
  match j with
  | O => w0
  | S j' => fst (func (world_before w0 v0 j') (item v0 j'))
  end.

(** The status the vendor function returns for item [j]. *)
Definition item_status (w0 : World) (v0 : Vars) (j : nat) : Z :=
  snd (func (world_before w0 v0 j) (item v0 j)).
End BatchLoop.

(** Number of times [i < batch_size] holds for [i = 0, 1, ...]. *)
Definition trip_count (batch_size : Z) : nat := Z.to_nat batch_size.

(* ===================================================================== *)
(** * Part III. Vendor call signatures                                   *)
(* ===================================================================== *)

(** [gesvd<T1, T2>]: handle, jobu, jobvt, m, n, A, lda, S, U, ldu, VT, ldvt,
    work, lwork, rwork, info.  [rwork = None] is [NULL]. *)
Record gesvd_args : Type := GesvdArgs {
  sv_handle : Z; sv_jobu : ascii; sv_jobvt : ascii; sv_m : Z; sv_n : Z;
  sv_A : ptr; sv_lda : Z; sv_S : ptr; sv_U : ptr; sv_ldu : Z;
  sv_VT : ptr; sv_ldvt : Z; sv_work : ptr; sv_lwork : Z;
  sv_rwork : option ptr; sv_info : ptr }.

(** [geqrf<T>]: handle, m, n, A, lda, tau, work, lwork, info. *)
Record geqrf_args : Type := GeqrfArgs {
  qr_handle : Z; qr_m : Z; qr_n : Z; qr_A : ptr; qr_lda : Z;
  qr_tau : ptr; qr_work : ptr; qr_lwork : Z; qr_info : ptr }.

(** [orgqr<T>]: handle, m, n, k, A, lda, tau, work, lwork, info. *)
Record orgqr_args : Type := OrgqrArgs {
  og_handle : Z; og_m : Z; og_n : Z; og_k : Z; og_A : ptr; og_lda : Z;
  og_tau : ptr; og_work : ptr; og_lwork : Z; og_info : ptr }.

(** A vendor entry point: it may read and write device memory and any
    other state, all of it in [World], and returns a status. *)
Definition vendor (World Args : Type) : Type := World -> Args -> World * Z.

(** What a dispatcher does: the world after it, the vendor calls it made,
    the [int] it returns. *)
Definition run (World Args : Type) : Type := (World * list Args * local)%type.

Definition run_world {World Args} (r : run World Args) : World := fst (fst r).
Definition run_calls {World Args} (r : run World Args) : list Args := snd (fst r).
Definition run_status {World Args} (r : run World Args) : local := snd r.

(** Loop variables of the SVD dispatcher and of the two QR dispatchers. *)
Record gesvd_vars : Type := GesvdVars {
  sA : ptr; sS : ptr; sU : ptr; sVT : ptr; sInfo : ptr }.

Record qr_vars : Type := QrVars { qA : ptr; qTau : ptr; qInfo : ptr }.

(* ===================================================================== *)
(** * Part IV. The dispatchers compiled for CUDA                         *)
(* ===================================================================== *)

Module Cuda.

(** The cuSOLVER entry points the function tables name. *)
Class cusolver (World : Type) : Type := {
  cusolverDnSgesvd : vendor World gesvd_args;
  cusolverDnDgesvd : vendor World gesvd_args;
  cusolverDnCgesvd : vendor World gesvd_args;
  cusolverDnZgesvd : vendor World gesvd_args;
  cusolverDnSgeqrf : vendor World geqrf_args;
  cusolverDnDgeqrf : vendor World geqrf_args;
  cusolverDnCgeqrf : vendor World geqrf_args;
  cusolverDnZgeqrf : vendor World geqrf_args;
  cusolverDnSorgqr : vendor World orgqr_args;
  cusolverDnDorgqr : vendor World orgqr_args;
  cusolverDnCungqr : vendor World orgqr_args;
  cusolverDnZungqr : vendor World orgqr_args }.

Definition cuComplex : elem := complex64.
Definition cuDoubleComplex : elem := complex128.

(** [std::conditional<is_same<T, float> || is_same<T, cuComplex>, float, double>] *)
Definition real_type (T : elem) : elem :=
  match T with
  | float | complex64 => float
  | double | complex128 => double
  end.

(** [gesvd_func<T, real_type>().ptr] *)
Definition gesvd_func {World} {lib : cusolver World} (T : elem) : vendor World gesvd_args :=
  match T with
  | float => cusolverDnSgesvd
  | double => cusolverDnDgesvd
  | complex64 => cusolverDnCgesvd
  | complex128 => cusolverDnZgesvd
  end.

(** [geqrf_func<T>().ptr] *)
Definition geqrf_func {World} {lib : cusolver World} (T : elem) : vendor World geqrf_args :=
  match T with
  | float => cusolverDnSgeqrf
  | double => cusolverDnDgeqrf
  | complex64 => cusolverDnCgeqrf
  | complex128 => cusolverDnZgeqrf
  end.

(** [orgqr_func<T>().ptr] *)
Definition orgqr_func {World} {lib : cusolver World} (T : elem) : vendor World orgqr_args :=
  match T with
  | float => cusolverDnSorgqr
  | double => cusolverDnDorgqr
  | complex64 => cusolverDnCungqr
  | complex128 => cusolverDnZungqr
  end.

(** ** gesvd_loop *)

Definition gesvd_init (T : elem) (a_ptr s_ptr u_ptr vt_ptr info_ptr : Z) : gesvd_vars :=
  {| sA := reinterpret_cast (c_elem T) a_ptr;
     sS := reinterpret_cast (c_elem (real_type T)) s_ptr;
     sU := reinterpret_cast (c_elem T) u_ptr;
     sVT := reinterpret_cast (c_elem T) vt_ptr;
     sInfo := reinterpret_cast c_int info_ptr |}.

(** [func(handle, jobu, jobvt, m, n, A, m, S, U, m, VT, n, Work, buffersize, NULL, devInfo)] *)
Definition gesvd_call (T : elem) (handle : Z) (jobu jobvt : ascii)
    (m n w_ptr buffersize : Z) (v : gesvd_vars) : gesvd_args :=
  let Work := reinterpret_cast (c_elem T) w_ptr in
  {| sv_handle := handle; sv_jobu := jobu; sv_jobvt := jobvt;
     sv_m := m; sv_n := n; sv_A := sA v; sv_lda := m; sv_S := sS v;
     sv_U := sU v; sv_ldu := m; sv_VT := sVT v; sv_ldvt := n;
     sv_work := Work; sv_lwork := buffersize; sv_rwork := None;
     sv_info := sInfo v |}.

(** The five pointer updates at the end of the loop body. *)
Definition gesvd_advance (jobu jobvt : ascii) (m n : Z) (v : gesvd_vars) : gesvd_vars :=
  let k := if m <? n then m else n in
  {| sA := ptr_add (sA v) (int_mul m n);
     sS := ptr_add (sS v) k;
     sU := ptr_add (sU v)
             (if Ascii.eqb jobu "A" then int_mul m m
              else if Ascii.eqb jobu "S" then int_mul m k
              else 0);
     sVT := ptr_add (sVT v)
              (if Ascii.eqb jobvt "A" then int_mul n n
               else if Ascii.eqb jobvt "S" then int_mul n k
               else 0);
     sInfo := ptr_add (sInfo v) 1 |}.

Definition gesvd_loop {World} {lib : cusolver World} (T : elem)
    (handle : Z) (jobu jobvt : ascii) (m n a_ptr s_ptr u_ptr vt_ptr
     w_ptr buffersize info_ptr batch_size : Z) (w : World)
  : run World gesvd_args :=
  batch_loop (gesvd_func T)
    (gesvd_call T handle jobu jobvt m n w_ptr buffersize)
    (gesvd_advance jobu jobvt m n)
    (trip_count batch_size) w
    (gesvd_init T a_ptr s_ptr u_ptr vt_ptr info_ptr) Uninit.

(** ** geqrf_loop *)

Definition geqrf_init (T : elem) (a_ptr tau_ptr info_ptr : Z) : qr_vars :=
  {| qA := reinterpret_cast (c_elem T) a_ptr;
     qTau := reinterpret_cast (c_elem T) tau_ptr;
     qInfo := reinterpret_cast c_int info_ptr |}.

(** [func(handle, m, n, A, lda, Tau, Work, buffersize, devInfo)] *)
Definition geqrf_call (T : elem) (handle m n lda w_ptr buffersize : Z)
    (v : qr_vars) : geqrf_args :=
  let Work := reinterpret_cast (c_elem T) w_ptr in
  {| qr_handle := handle; qr_m := m; qr_n := n; qr_A := qA v;
     qr_lda := lda; qr_tau := qTau v; qr_work := Work;
     qr_lwork := buffersize; qr_info := qInfo v |}.

Definition geqrf_advance (m n : Z) (v : qr_vars) : qr_vars :=
  let k := if m <? n then m else n in
  {| qA := ptr_add (qA v) (int_mul m n);
     qTau := ptr_add (qTau v) k;
     qInfo := ptr_add (qInfo v) 1 |}.

Definition geqrf_loop {World} {lib : cusolver World} (T : elem)
    (handle m n a_ptr lda tau_ptr w_ptr buffersize info_ptr batch_size : Z)
    (w : World) : run World geqrf_args :=
  batch_loop (geqrf_func T)
    (geqrf_call T handle m n lda w_ptr buffersize)
    (geqrf_advance m n)
    (trip_count batch_size) w
    (geqrf_init T a_ptr tau_ptr info_ptr) Uninit.

(** ** orgqr_loop *)

Definition orgqr_init (T : elem) (a_ptr tau_ptr info_ptr : Z) : qr_vars :=
  {| qA := reinterpret_cast (c_elem T) a_ptr;
     qTau := reinterpret_cast (c_elem T) tau_ptr;
     qInfo := reinterpret_cast c_int info_ptr |}.

(** [func(handle, m, n, k, A, lda, Tau, Work, buffersize, devInfo)] *)
Definition orgqr_call (T : elem) (handle m n k lda w_ptr buffersize : Z)
    (v : qr_vars) : orgqr_args :=
  let Work := reinterpret_cast (c_elem T) w_ptr in
  {| og_handle := handle; og_m := m; og_n := n; og_k := k; og_A := qA v;
     og_lda := lda; og_tau := qTau v; og_work := Work;
     og_lwork := buffersize; og_info := qInfo v |}.

Definition orgqr_advance (m k origin_n : Z) (v : qr_vars) : qr_vars :=
  {| qA := ptr_add (qA v) (int_mul m origin_n);
     qTau := ptr_add (qTau v) k;
     qInfo := ptr_add (qInfo v) 1 |}.

Definition orgqr_loop {World} {lib : cusolver World} (T : elem)
    (handle m n k a_ptr lda tau_ptr w_ptr buffersize info_ptr
     batch_size origin_n : Z) (w : World) : run World orgqr_args :=
  batch_loop (orgqr_func T)
    (orgqr_call T handle m n k lda w_ptr buffersize)
    (orgqr_advance m k origin_n)
    (trip_count batch_size) w
    (orgqr_init T a_ptr tau_ptr info_ptr) Uninit.

End Cuda.

(* ===================================================================== *)
(** * Part V. The dispatchers compiled for HIP                           *)
(* ===================================================================== *)

Module Hip.

(** The hipSOLVER entry points the function tables name. *)
Class hipsolver (World : Type) : Type := {
  hipsolverSgeqrf : vendor World geqrf_args;
  hipsolverDgeqrf : vendor World geqrf_args;
  hipsolverCgeqrf : vendor World geqrf_args;
  hipsolverZgeqrf : vendor World geqrf_args;
  hipsolverDnSorgqr : vendor World orgqr_args;
  hipsolverDnDorgqr : vendor World orgqr_args;
  hipsolverDnCungqr : vendor World orgqr_args;
  hipsolverDnZungqr : vendor World orgqr_args }.

Definition hipFloatComplex : elem := complex64.
Definition hipDoubleComplex : elem := complex128.

(** ** gesvd_loop: [return 0;] *)
Definition gesvd_loop {World} (T : elem)
    (handle : Z) (jobu jobvt : ascii) (m n a_ptr s_ptr u_ptr vt_ptr
     w_ptr buffersize info_ptr batch_size : Z) (w : World)
  : run World gesvd_args :=
  (w, [], Init 0).

Definition is_floating_point (T : elem) : bool :=
  match T with
  | float | double => true
  | complex64 | complex128 => false
  end.

Definition elem_eqb (a b : elem) : bool :=
  match a, b with
  | float, float | double, double
  | complex64, complex64 | complex128, complex128 => true
  | _, _ => false
  end.

(** The [data_type] typedef of [geqrf_loop]. *)
Definition data_type (T : elem) : elem :=
  if is_floating_point T then T
  else if elem_eqb T hipFloatComplex then hipFloatComplex
  else hipDoubleComplex.

(** [geqrf_func<T>().ptr] *)
Definition geqrf_func {World} {lib : hipsolver World} (T : elem) : vendor World geqrf_args :=
  match T with
  | float => hipsolverSgeqrf
  | double => hipsolverDgeqrf
  | complex64 => hipsolverCgeqrf
  | complex128 => hipsolverZgeqrf
  end.

(** [orgqr_func<T>().ptr] *)
Definition orgqr_func {World} {lib : hipsolver World} (T : elem) : vendor World orgqr_args :=
  match T with
  | float => hipsolverDnSorgqr
  | double => hipsolverDnDorgqr
  | complex64 => hipsolverDnCungqr
  | complex128 => hipsolverDnZungqr
  end.

(** ** geqrf_loop *)

Definition geqrf_init (T : elem) (a_ptr tau_ptr info_ptr : Z) : qr_vars :=
  {| qA := reinterpret_cast (c_elem (data_type T)) a_ptr;
     qTau := reinterpret_cast (c_elem (data_type T)) tau_ptr;
     qInfo := reinterpret_cast c_int info_ptr |}.

(** [func(handle, m, n, A, lda, Tau, Work, buffersize, devInfo)] *)
Definition geqrf_call (T : elem) (handle m n lda w_ptr buffersize : Z)
    (v : qr_vars) : geqrf_args :=
  let Work := reinterpret_cast (c_elem (data_type T)) w_ptr in
  {| qr_handle := handle; qr_m := m; qr_n := n; qr_A := qA v;
     qr_lda := lda; qr_tau := qTau v; qr_work := Work;
     qr_lwork := buffersize; qr_info := qInfo v |}.

Definition geqrf_advance (m n : Z) (v : qr_vars) : qr_vars :=
  let k := if m <? n then m else n in
  {| qA := ptr_add (qA v) (int_mul m n);
     qTau := ptr_add (qTau v) k;
     qInfo := ptr_add (qInfo v) 1 |}.

Definition geqrf_loop {World} {lib : hipsolver World} (T : elem)
    (handle m n a_ptr lda tau_ptr w_ptr buffersize info_ptr batch_size : Z)
    (w : World) : run World geqrf_args :=
  batch_loop (geqrf_func (data_type T))
    (geqrf_call T handle m n lda w_ptr buffersize)
    (geqrf_advance m n)
    (trip_count batch_size) w
    (geqrf_init T a_ptr tau_ptr info_ptr) Uninit.

(** ** orgqr_loop *)

Definition orgqr_init (T : elem) (a_ptr tau_ptr info_ptr : Z) : qr_vars :=
  {| qA := reinterpret_cast (c_elem T) a_ptr;
     qTau := reinterpret_cast (c_elem T) tau_ptr;
     qInfo := reinterpret_cast c_int info_ptr |}.

(** [func(handle, m, n, k, A, lda, Tau, Work, buffersize, devInfo)] *)
Definition orgqr_call (T : elem) (handle m n k lda w_ptr buffersize : Z)
    (v : qr_vars) : orgqr_args :=
  let Work := reinterpret_cast (c_elem T) w_ptr in
  {| og_handle := handle; og_m := m; og_n := n; og_k := k; og_A := qA v;
     og_lda := lda; og_tau := qTau v; og_work := Work;
     og_lwork := buffersize; og_info := qInfo v |}.

Definition orgqr_advance (m k origin_n : Z) (v : qr_vars) : qr_vars :=
  {| qA := ptr_add (qA v) (int_mul m origin_n);
     qTau := ptr_add (qTau v) k;
     qInfo := ptr_add (qInfo v) 1 |}.

Definition orgqr_loop {World} {lib : hipsolver World} (T : elem)
    (handle m n k a_ptr lda tau_ptr w_ptr buffersize info_ptr
     batch_size origin_n : Z) (w : World) : run World orgqr_args :=
  batch_loop (orgqr_func T)
    (orgqr_call T handle m n k lda w_ptr buffersize)
    (orgqr_advance m k origin_n)
    (trip_count batch_size) w
    (orgqr_init T a_ptr tau_ptr info_ptr) Uninit.

End Hip.


(* ===================================================================== *)
(** * Part VI. The soft-link loader                                      *)
(* ===================================================================== *)

Module Softlink.

(** ** Python values the loader handles *)

(** An exception object: [type(e).__name__], [str(e)] and [__cause__]. *)
#[warnings="-register-all"]
Inductive exception : Type :=
| Exception (type_name : string) (message : string) (cause : option exception).

Definition type_name (e : exception) : string :=
  match e with Exception n _ _ => n end.

Definition str (e : exception) : string :=
  match e with Exception _ m _ => m end.

Definition cause (e : exception) : option exception :=
  match e with Exception _ _ c => c end.

Definition RuntimeError (msg : string) : exception :=
  Exception "RuntimeError" msg None.

Definition AssertionError (msg : string) : exception :=
  Exception "AssertionError" msg None.

Definition IndexError (msg : string) : exception :=
  Exception "IndexError" msg None.

Definition TypeError (msg : string) : exception :=
  Exception "TypeError" msg None.


(** [raise new from e] *)
Definition raise_from (new e : exception) : exception :=
  Exception (type_name new) (str new) (Some e).

(** A call either returns or raises. *)
Inductive outcome (A : Type) : Type :=
| Return (a : A)
| Raise (e : exception).
Arguments Return {A} a.
Arguments Raise {A} e.

(** The value a [cdef int f() except -1] hands to its C caller. *)
Definition except_minus1 (o : outcome Z) : Z :=
  match o with
  | Return z => z
  | Raise _ => -1
  end.

(** [needle in hay] on strings. *)
Fixpoint contains (needle hay : string) : bool :=
  if String.prefix needle hay then true
  else match hay with
       | EmptyString => false
       | String _ rest => contains needle rest
       end.

(** ** get_hipfuncname *)

(** [hipify_torch.cuda_to_hip_mappings.CUDA_TO_HIP_MAPPINGS], taken as
    imported: a list of dicts, each from a CUDA name to a tuple whose
    component 0 is the HIP name.  [d[name][0]] on an empty tuple raises
    IndexError. *)
Fixpoint get_hipfuncname (cuda_to_hip_map_list : list (gmap string (list string)))
    (cudafuncname : string) : outcome string :=
  match cuda_to_hip_map_list with
  | [] => Return cudafuncname
  | cuda_to_hip_map :: rest =>
      match cuda_to_hip_map !! cudafuncname with
      | Some (hipname :: _) => Return hipname
      | Some [] => Raise (IndexError "tuple index out of range")
      | None => get_hipfuncname rest cudafuncname
      end
  end.

(** ** class SoftLink *)

(** The attributes of a [SoftLink].  An opened library is kept as the
    symbols it exports and the addresses of their functions. *)
Record SoftLink : Type := mkSoftLink {
  error : option exception;
  prefix : string;
  _cdll : option (gmap string Z) }.

(** A C function pointer handed out by [get]: the address of one of the
    two stubs, the address behind a symbol, or [NULL]. *)
Inductive func_ptr : Type :=
| fail_unsupported_ptr
| fail_not_found_ptr
| symbol_ptr (addr : Z)
| null_ptr.

(** What [warnings.warn(msg)] does is the interpreter's: with the default
    filters it reports and returns ([None] here), with a filter that
    turns warnings into errors it raises. *)
Definition warn_returns (msg : string) : option exception := None.


(** [SoftLink.__init__(libname, prefix, mandatory=...)].  [CDLL] is
    [ctypes.CDLL] and [warn] is [warnings.warn]; the first component of
    the result lists the messages passed to [warnings.warn]. *)
Definition init_with (warn : string -> option exception)
    (CDLL : string -> outcome (gmap string Z))
    (libname : option string) (prefix : string) (mandatory : bool)
  : list string * outcome SoftLink :=
  match libname with
  | None =>
      ([], Return
         {| error := Some (RuntimeError
              "The library is unavailable in the current platform.");
            prefix := prefix;
            _cdll := None |})
  | Some libname =>
      match CDLL libname with
      | Return lib =>
          ([], Return {| error := None; prefix := prefix; _cdll := Some lib |})
      | Raise e =>
          let msg := "CuPy failed to load " +:+ libname +:+ ": "
                     +:+ type_name e +:+ ": " +:+ str e in
          if mandatory
          then ([], Raise (raise_from (RuntimeError msg) e))
          else match warn msg with
               | Some raised => ([msg], Raise raised)
               | None =>
                   ([msg], Return {| error := Some e; prefix := prefix;
                                     _cdll := None |})
               end
      end
  end.

(** Construction under the default warning filters. *)
Definition init (CDLL : string -> outcome (gmap string Z))
    (libname : option string) (prefix : string) (mandatory : bool)
  : list string * outcome SoftLink :=
  init_with warn_returns CDLL libname prefix mandatory.

(** The name [get] looks up in the library: lines 42-47, with the
    compile-time constant [CUPY_HIP_VERSION] as a parameter. *)
Definition funcname (CUPY_HIP_VERSION : Z)
    (CUDA_TO_HIP_MAPPINGS : list (gmap string (list string)))
    (self : SoftLink) (name : string) : outcome string :=
  let cudafuncname := prefix self +:+ name in
  if negb (CUPY_HIP_VERSION =? 0)
  then get_hipfuncname CUDA_TO_HIP_MAPPINGS cudafuncname
  else Return cudafuncname.

(** *** Attribute lookup on a [ctypes.CDLL] object

    Strings stand for the UTF-8 bytes of Python strings.  The tables are
    those of the interpreter the repository's test image installs
    (CPython 3.9.6, default flags). *)

(** [s.endswith(suffix)] *)
Definition ends_with (suffix s : string) : bool :=
  let n := String.length s in
  let k := String.length suffix in
  (k <=? n)%nat && String.eqb (substring (n - k) k s) suffix.

(** [name.startswith('__') and name.endswith('__')] *)
Definition dunder (name : string) : bool :=
  String.prefix "__" name && ends_with "__" name.

(** The attributes a [CDLL] object has as a Python object, apart from
    [__weakref__], which is [None]: those [CDLL.__init__] sets and those
    of the class, then those every object has.  None of them is a ctypes
    instance. *)
Definition cdll_attributes : list string :=
  [ "_name"; "_handle"; "_FuncPtr"; "_func_flags_"; "_func_restype_";
    "__class__"; "__delattr__"; "__dict__"; "__dir__"; "__doc__"; "__eq__";
    "__format__"; "__ge__"; "__getattr__"; "__getattribute__";
    "__getitem__"; "__gt__"; "__hash__"; "__init__"; "__init_subclass__";
    "__le__"; "__lt__"; "__module__"; "__ne__"; "__new__"; "__reduce__";
    "__reduce_ex__"; "__repr__"; "__setattr__"; "__sizeof__"; "__str__";
    "__subclasshook__" ]%string.

Definition is_cdll_attribute (name : string) : bool :=
  existsb (String.eqb name) cdll_attributes.

(** The C string a name is handed to [dlsym] as: it ends at the first
    NUL. *)
Fixpoint c_str (s : string) : string :=
  match s with
  | EmptyString => EmptyString
  | String c rest =>
      if Ascii.eqb c Ascii.zero then EmptyString else String c (c_str rest)
  end.

(** What [getattr(cdll, name, None)] evaluates to: [None], a Python
    object that is no ctypes instance, or the function object of an
    exported symbol. *)
Inductive attribute : Type :=
| attr_None
| attr_object
| attr_function (addr : Z).

(** Ordinary attribute lookup comes first; then [CDLL.__getattr__], which
    raises AttributeError for a name of the form [__x__] and otherwise
    asks the library for the symbol; AttributeError gives the default. *)
Definition getattr_cdll (lib : gmap string Z) (name : string) : attribute :=
  if is_cdll_attribute name then attr_object
  else if dunder name then attr_None
  else match lib !! c_str name with
       | None => attr_None
       | Some addr => attr_function addr
       end.

(** Lines 48-52: [getattr(self._cdll, funcname, None)]; the stub when that
    is [None]; otherwise [ctypes.addressof(func)] and the function pointer
    stored there.  [ctypes.addressof] raises TypeError on what is no
    ctypes instance, and [get], a [cdef] function with no [except] clause
    compiled by Cython 0.29, then reports the exception as unraisable,
    drops it and returns [NULL]. *)
Definition getattr_or_stub (lib : gmap string Z) (funcname : string) : func_ptr :=
  match getattr_cdll lib funcname with
  | attr_None => fail_not_found_ptr
  | attr_function addr => symbol_ptr addr
  | attr_object => null_ptr
  end.

(** [SoftLink.get(name)].  No exception leaves it: one raised by the name
    translation is reported as unraisable and dropped, and [NULL] is
    returned. *)
Definition get (CUPY_HIP_VERSION : Z)
    (CUDA_TO_HIP_MAPPINGS : list (gmap string (list string)))
    (self : SoftLink) (name : string) : outcome func_ptr :=
  match _cdll self with
  | None => Return fail_unsupported_ptr
  | Some lib =>
      match funcname CUPY_HIP_VERSION CUDA_TO_HIP_MAPPINGS self name with
      | Raise e => Return null_ptr
      | Return funcname => Return (getattr_or_stub lib funcname)
      end
  end.

(** The exception [get] reports as unraisable, if any. *)
Definition get_unraisable (CUPY_HIP_VERSION : Z)
    (CUDA_TO_HIP_MAPPINGS : list (gmap string (list string)))
    (self : SoftLink) (name : string) : option exception :=
  match _cdll self with
  | None => None
  | Some lib =>
      match funcname CUPY_HIP_VERSION CUDA_TO_HIP_MAPPINGS self name with
      | Raise e => Some e
      | Return funcname =>
          match getattr_cdll lib funcname with
          | attr_object => Some (TypeError "invalid type")
          | _ => None
          end
      end
  end.

(** A name that reaches the library as it is: no attribute of the [CDLL]
    object, not of the form [__x__], no NUL. *)
Definition plain_symbol_name (name : string) : bool :=
  negb (is_cdll_attribute name) && negb (dunder name)
  && String.eqb (c_str name) name.

(** ** The stubs *)

Definition issue_tracker : string := "https://github.com/cupy/cupy/issues".

Definition _fail_unsupported : outcome Z :=
  Raise (AssertionError "
*** The requested function is not supported in the current version of
*** the toolkit installed in your environment.
***
*** This is likely a bug in CuPy. Please report this issue to:
***   https://github.com/cupy/cupy/issues
").

Definition _fail_not_found : outcome Z :=
  Raise (AssertionError "
*** The requested function could not be found in the library.
***
*** This is likely a bug in CuPy. Please report this issue to:
***   https://github.com/cupy/cupy/issues
").

(** Calling through a [func_ptr]: a stub runs its body and leaves the
    world alone, a symbol runs the native function at its address, and a
    call through [NULL] is a native call at address 0. *)
Definition invoke {World : Type} (native : Z -> World -> World * Z)
    (p : func_ptr) (w : World) : World * outcome Z :=
  match p with
  | fail_unsupported_ptr => (w, _fail_unsupported)
  | fail_not_found_ptr => (w, _fail_not_found)
  | symbol_ptr addr => let '(w', status) := native addr w in (w', Return status)
  | null_ptr => let '(w', status) := native 0 w in (w', Return status)
  end.

End Softlink.


(* ===================================================================== *)
(** * Part VII. Vocabulary of the properties, and sample vendors         *)
(* ===================================================================== *)

(** Per-item stride of an orthogonal-factor buffer of a [dim] x [dim]
    factor under mode flag [job], with [k = min(m, n)]: all columns for
    ['A'], the reduced factor for ['S'], nothing otherwise. *)
Definition factor_stride (job : ascii) (dim k : Z) : Z :=
  if Ascii.eqb job "A" then dim * dim
  else if Ascii.eqb job "S" then dim * k
  else 0.

(** A dispatcher halts at the first failure: whenever the vendor returns 0
    for items [0 .. k-1] and [s <> 0] for item [k < batch_size], exactly
    the items [0 .. k] are called, in order, and [s] is returned. *)
Definition halts_at_first_failure {World Args : Type}
    (status_of : nat -> Z) (item_of : nat -> Args)
    (r : run World Args) (batch_size : Z) : Prop :=
  forall (k : nat) (s : Z),
    Z.of_nat k < batch_size ->
    (forall j, (j < k)%nat -> status_of j = 0) ->
    status_of k = s -> s <> 0 ->
    length (run_calls r) = S k
    /\ run_calls r = map item_of (seq 0 (S k))
    /\ run_status r = Init s.

(** What an empty batch gives, and what is needed for a defined result. *)
Definition undefined_when_empty {World Args : Type}
    (w : World) (r : run World Args) (batch_size : Z) : Prop :=
  (batch_size <= 0 -> r = (w, [], Uninit))
  /\ (1 <= batch_size -> exists s, run_status r = Init s)
  /\ (forall s, run_status r = Init s -> 1 <= batch_size).

(** Two argument lists that agree except for workspace pointer, workspace
    size and info pointer. *)
Definition orgqr_same_but_aux (a b : orgqr_args) : Prop :=
  og_handle a = og_handle b /\ og_m a = og_m b /\ og_n a = og_n b
  /\ og_k a = og_k b /\ og_A a = og_A b /\ og_lda a = og_lda b
  /\ og_tau a = og_tau b.

(** How far one application of [adv] moves the matrix pointer, in
    elements. *)
Definition matrix_advance (adv : qr_vars -> qr_vars) (v : qr_vars) : Z :=
  offset (qA (adv v)) - offset (qA v).

Module Sample.

(** A vendor whose world is the number of calls made so far; call number
    [k] (from 0) returns [code], every other call returns 0. *)
Definition scripted {Args : Type} (k : nat) (code : Z) : vendor nat Args :=
  fun calls_so_far _ => (S calls_so_far, if Nat.eqb calls_so_far k then code else 0).

(** A vendor that rejects a workspace smaller than [need] with [code]. *)
Definition checks_lwork {Args : Type} (lwork : Args -> Z) (need code : Z)
  : vendor unit Args :=
  fun w a => (w, if lwork a <? need then code else 0).

Definition cusolver_scripted (k : nat) (code : Z) : Cuda.cusolver nat :=
  {| Cuda.cusolverDnSgesvd := scripted k code;
     Cuda.cusolverDnDgesvd := scripted k code;
     Cuda.cusolverDnCgesvd := scripted k code;
     Cuda.cusolverDnZgesvd := scripted k code;
     Cuda.cusolverDnSgeqrf := scripted k code;
     Cuda.cusolverDnDgeqrf := scripted k code;
     Cuda.cusolverDnCgeqrf := scripted k code;
     Cuda.cusolverDnZgeqrf := scripted k code;
     Cuda.cusolverDnSorgqr := scripted k code;
     Cuda.cusolverDnDorgqr := scripted k code;
     Cuda.cusolverDnCungqr := scripted k code;
     Cuda.cusolverDnZungqr := scripted k code |}.

Definition hipsolver_scripted (k : nat) (code : Z) : Hip.hipsolver nat :=
  {| Hip.hipsolverSgeqrf := scripted k code;
     Hip.hipsolverDgeqrf := scripted k code;
     Hip.hipsolverCgeqrf := scripted k code;
     Hip.hipsolverZgeqrf := scripted k code;
     Hip.hipsolverDnSorgqr := scripted k code;
     Hip.hipsolverDnDorgqr := scripted k code;
     Hip.hipsolverDnCungqr := scripted k code;
     Hip.hipsolverDnZungqr := scripted k code |}.

Definition hipsolver_checks_lwork (need code : Z) : Hip.hipsolver unit :=
  {| Hip.hipsolverSgeqrf := checks_lwork qr_lwork need code;
     Hip.hipsolverDgeqrf := checks_lwork qr_lwork need code;
     Hip.hipsolverCgeqrf := checks_lwork qr_lwork need code;
     Hip.hipsolverZgeqrf := checks_lwork qr_lwork need code;
     Hip.hipsolverDnSorgqr := checks_lwork og_lwork need code;
     Hip.hipsolverDnDorgqr := checks_lwork og_lwork need code;
     Hip.hipsolverDnCungqr := checks_lwork og_lwork need code;
     Hip.hipsolverDnZungqr := checks_lwork og_lwork need code |}.

(** A name table in the shape of [CUDA_TO_HIP_MAPPINGS], a library that
    exports one symbol, and a loader that finds no library. *)
Definition mappings : list (gmap string (list string)) :=
  [ {[ "cudaMalloc"%string := ["hipMalloc"%string] ]};
    {[ "cusolverDnSgeqrf"%string
         := ["hipsolverSgeqrf"%string; "rocsolver_sgeqrf"%string] ]};
    {[ "cusolverDnSgeqrf"%string := ["hipsolverDnSgeqrf"%string] ]} ].

Definition libhipsolver : gmap string Z :=
  {[ "hipsolverSgeqrf"%string := 4096 ]}.

Definition no_such_library (libname : string) : Softlink.outcome (gmap string Z) :=
  Softlink.Raise
    (Softlink.Exception "OSError"
       (libname +:+ ": cannot open shared object file") None).

End Sample.

(** ** Further vocabulary: the shape of every run *)

(** A batch in which no item fails is called in full: with
    [batch_size >= 1] and status 0 for every item below [batch_size], the
    run calls items [0 .. batch_size-1] in order, ends in the world the
    last of them leaves, and returns 0. *)
Definition completes_when_all_succeed {World Vars Args : Type}
    (func : vendor World Args) (call : Vars -> Args) (advance : Vars -> Vars)
    (w : World) (v0 : Vars) (r : run World Args) (batch_size : Z) : Prop :=
  1 <= batch_size ->
  (forall j : nat, Z.of_nat j < batch_size ->
     item_status func call advance w v0 j = 0) ->
  r = (world_before func call advance w v0 (Z.to_nat batch_size),
       map (item call advance v0) (seq 0 (Z.to_nat batch_size)),
       Init 0).

(** What every run with [batch_size >= 1] looks like: there is a last
    item called, [last < batch_size]; the calls are items [0 .. last] in
    order; the status returned is the one the vendor gave for [last];
    every earlier item was given status 0; and if [last] was given 0 as
    well, it is the final item of the batch. *)
Definition returns_last_status {World Vars Args : Type}
    (func : vendor World Args) (call : Vars -> Args) (advance : Vars -> Vars)
    (w : World) (v0 : Vars) (r : run World Args) (batch_size : Z) : Prop :=
  1 <= batch_size ->
  exists last : nat,
    Z.of_nat last < batch_size
    /\ run_calls r = map (item call advance v0) (seq 0 (S last))
    /\ run_world r = world_before func call advance w v0 (S last)
    /\ run_status r = Init (item_status func call advance w v0 last)
    /\ (forall j, (j < last)%nat -> item_status func call advance w v0 j = 0)
    /\ (item_status func call advance w v0 last = 0 ->
        Z.of_nat (S last) = batch_size).

(** A longer batch only adds calls after those of a shorter one, and adds
    none when the shorter one already failed. *)
Definition extends {World Args : Type} (short long : run World Args) : Prop :=
  (exists more, run_calls long = run_calls short ++ more)
  /\ (forall s, s <> 0 -> run_status short = Init s -> long = short).

Module Scenario.

(** A library with one exported symbol, a loader that opens it under any
    name, and a name table in which one name has an empty tuple. *)
Definition libfoo : gmap string Z := {[ "foo_bar"%string := 8192 ]}.

Definition opens_libfoo (libname : string) : Softlink.outcome (gmap string Z) :=
  Softlink.Return libfoo.

Definition broken_mappings : list (gmap string (list string)) :=
  [ {[ "cudaMalloc"%string := ["hipMalloc"%string] ]};
    {[ "cusolverDnSgeqrf"%string := [] ]};
    {[ "cusolverDnSgeqrf"%string := ["hipsolverSgeqrf"%string] ]} ].

End Scenario.


(* ===================================================================== *)
(** * Part VIII. Facts about the shared loop                             *)
(* ===================================================================== *)

Lemma int_wrap_id z : int_range z -> int_wrap z = z.
Proof.
  unfold int_range, int_min, int_max, int_wrap. intros Hz.
  rewrite Z.mod_small; lia.
Qed.

Lemma int_mul_exact a b : int_range (a * b) -> int_mul a b = a * b.
Proof. apply int_wrap_id. Qed.

Section BatchLoopFacts.
Context {World Vars Args : Type}.
Variable func : World -> Args -> World * Z.
Variable call : Vars -> Args.
Variable advance : Vars -> Vars.

Abbreviation loop := (batch_loop func call advance).
Abbreviation item_at := (item call advance).
Abbreviation world_at := (world_before func call advance).
Abbreviation status_at := (item_status func call advance).

Lemma item_shift v j : item_at (advance v) j = item_at v (S j).
Proof. unfold item. now rewrite Nat.iter_swap. Qed.

Lemma world_before_shift w v j :
  world_at (fst (func w (call v))) (advance v) j = world_at w v (S j).
Proof.
  induction j as [|j IH]; [reflexivity|].
  change (world_at (fst (func w (call v))) (advance v) (S j))
    with (fst (func (world_at (fst (func w (call v))) (advance v) j)
                    (item_at (advance v) j))).
  rewrite IH, item_shift. reflexivity.
Qed.

Lemma item_status_shift w v j :
  status_at (fst (func w (call v))) (advance v) j = status_at w v (S j).
Proof.
  unfold item_status.
  rewrite world_before_shift, item_shift. reflexivity.
Qed.

Lemma item_seq_shift v n :
  call v :: map (item_at (advance v)) (seq 0 n) = map (item_at v) (seq 0 (S n)).
Proof.
  change (seq 0 (S n)) with (0%nat :: seq 1 n).
  cbn [map]. rewrite <- (seq_shift n 0), map_map. f_equal.
  apply map_ext. intros j. apply item_shift.
Qed.

Lemma item_status_0 w v : status_at w v 0 = snd (func w (call v)).
Proof. reflexivity. Qed.

(** No iteration: nothing is called and [status] is returned as it was. *)
Lemma batch_loop_0 w v st : loop 0 w v st = (w, [], st).
Proof. reflexivity. Qed.

(** The loop stops at the first item whose status is not 0. *)
Lemma batch_loop_halts k : forall remaining w v st s,
  (k < remaining)%nat ->
  (forall j, (j < k)%nat -> status_at w v j = 0) ->
  status_at w v k = s -> s <> 0 ->
  loop remaining w v st
  = (world_at w v (S k), map (item_at v) (seq 0 (S k)), Init s).
Proof.
  induction k as [|k IH]; intros remaining w v st s Hlt Hok Hk Hs.
  - destruct remaining as [|r]; [lia|].
    rewrite item_status_0 in Hk. cbn [batch_loop].
    change (world_at w v 1) with (fst (func w (call v))).
    change (map (item_at v) (seq 0 1)) with [call v].
    destruct (func w (call v)) as [w' st'] eqn:E. simpl in Hk. subst st'.
    apply Z.eqb_neq in Hs. rewrite Hs. reflexivity.
  - destruct remaining as [|r]; [lia|].
    pose proof (Hok 0%nat ltac:(lia)) as H0. rewrite item_status_0 in H0.
    cbn [batch_loop].
    destruct (func w (call v)) as [w' st'] eqn:E. simpl in H0. subst st'.
    assert (Ew : w' = fst (func w (call v))) by now rewrite E.
    rewrite Z.eqb_refl, Ew.
    rewrite (IH r _ (advance v) (Init 0) s); try lia.
    + rewrite world_before_shift, item_seq_shift. reflexivity.
    + intros j Hj. rewrite item_status_shift. apply Hok. lia.
    + rewrite item_status_shift. exact Hk.
Qed.

(** When no item fails, every item is called. *)
Lemma batch_loop_completes : forall remaining w v st,
  (forall j, (j < remaining)%nat -> status_at w v j = 0) ->
  loop remaining w v st
  = (world_at w v remaining, map (item_at v) (seq 0 remaining),
     match remaining with O => st | S _ => Init 0 end).
Proof.
  induction remaining as [|r IH]; intros w v st Hok; [reflexivity|].
  pose proof (Hok 0%nat ltac:(lia)) as H0. rewrite item_status_0 in H0.
  cbn [batch_loop].
  destruct (func w (call v)) as [w' st'] eqn:E. simpl in H0. subst st'.
  assert (Ew : w' = fst (func w (call v))) by now rewrite E.
  rewrite Z.eqb_refl, Ew, IH.
  - rewrite world_before_shift, item_seq_shift. now destruct r.
  - intros j Hj. rewrite item_status_shift. apply Hok. lia.
Qed.

(** Whatever the vendor answers, the [i]-th call made is item [i]. *)
Lemma batch_loop_calls : forall remaining w v st w' calls ret,
  loop remaining w v st = (w', calls, ret) ->
  calls = map (item_at v) (seq 0 (length calls))
  /\ (length calls <= remaining)%nat.
Proof.
  induction remaining as [|r IH]; intros w v st w' calls ret Hrun.
  - inversion Hrun; subst. split; [reflexivity | simpl; lia].
  - cbn [batch_loop] in Hrun.
    destruct (func w (call v)) as [w1 st1].
    destruct (st1 =? 0).
    + destruct (loop r w1 (advance v) (Init st1)) as [[w2 calls2] ret2] eqn:E.
      inversion Hrun; subst. destruct (IH _ _ _ _ _ _ E) as [Hc Hl].
      split; [|simpl; lia].
      cbn [length]. rewrite <- item_seq_shift. now f_equal.
    + inversion Hrun; subst. split; [reflexivity | simpl; lia].
Qed.

Lemma batch_loop_call_at remaining w v st w' calls ret (i : nat) c :
  loop remaining w v st = (w', calls, ret) ->
  calls !! i = Some c -> c = item_at v i.
Proof.
  intros Hrun Hi. destruct (batch_loop_calls _ _ _ _ _ _ _ Hrun) as [Hc _].
  pose proof (lookup_lt_Some _ _ _ Hi) as Hlt.
  rewrite Hc in Hi. rewrite list_lookup_fmap in Hi.
  rewrite lookup_seq_lt in Hi by exact Hlt. simpl in Hi. congruence.
Qed.

(** A run that returns status 0 has called every item. *)
Lemma batch_loop_success : forall remaining w v st w' calls ret,
  loop remaining w v st = (w', calls, ret) ->
  remaining <> O -> ret = Init 0 -> length calls = remaining.
Proof.
  induction remaining as [|r IH]; intros w v st w' calls ret Hrun Hne Hret;
    [congruence|].
  cbn [batch_loop] in Hrun.
  destruct (func w (call v)) as [w1 st1].
  destruct (st1 =? 0) eqn:Est.
  - destruct (loop r w1 (advance v) (Init st1)) as [[w2 calls2] ret2] eqn:E.
    inversion Hrun; subst. cbn [length]. f_equal.
    destruct r as [|r'].
    + rewrite batch_loop_0 in E. now inversion E.
    + eapply IH; eauto.
  - inversion Hrun; subst. apply Z.eqb_neq in Est. congruence.
Qed.

(** With at least one iteration [status] has been assigned. *)
Lemma batch_loop_assigned : forall remaining w v st,
  remaining <> O -> exists s, snd (loop remaining w v st) = Init s.
Proof.
  induction remaining as [|r IH]; intros w v st Hne; [congruence|].
  cbn [batch_loop].
  destruct (func w (call v)) as [w1 st1].
  destruct (st1 =? 0).
  - destruct r as [|r'].
    + simpl. eauto.
    + destruct (IH w1 (advance v) (Init st1) ltac:(congruence)) as [s Hs].
      destruct (loop (S r') w1 (advance v) (Init st1)) as [[w2 calls2] ret2].
      simpl in *. eauto.
  - simpl. eauto.
Qed.

(** The loop against the vocabulary of Part VII. *)
Lemma batch_loop_halts_at_first_failure batch_size w v st :
  halts_at_first_failure (status_at w v) (item_at v)
    (loop (trip_count batch_size) w v st) batch_size.
Proof.
  intros k s Hk Hok Hs Hne.
  rewrite (batch_loop_halts k (trip_count batch_size) w v st s);
    [|unfold trip_count; lia|assumption..].
  unfold run_calls, run_status. cbn [fst snd].
  split; [|split]; try reflexivity.
  now rewrite length_map, length_seq.
Qed.

Lemma batch_loop_undefined_when_empty batch_size w v :
  undefined_when_empty w (loop (trip_count batch_size) w v Uninit) batch_size.
Proof.
  unfold undefined_when_empty, trip_count. split; [|split].
  - intros Hle. replace (Z.to_nat batch_size) with O by lia. reflexivity.
  - intros Hge. apply batch_loop_assigned. lia.
  - intros s Hs. destruct (Z.le_gt_cases 1 batch_size) as [|Hlt]; [assumption|].
    replace (Z.to_nat batch_size) with O in Hs by lia.
    rewrite batch_loop_0 in Hs. discriminate Hs.
Qed.


End BatchLoopFacts.

(** Two loops whose argument lists stay related, run against vendors that
    cannot tell related argument lists apart, leave the same world, return
    the same status and make related calls. *)
Section BatchLoopRelated.
Context {World Vars Args : Type}.
Variables (func1 func2 : World -> Args -> World * Z).
Variables (call1 call2 : Vars -> Args) (advance1 advance2 : Vars -> Vars).
Variable R : Vars -> Vars -> Prop.
Variable E : Args -> Args -> Prop.
Hypothesis call_related : forall v1 v2, R v1 v2 -> E (call1 v1) (call2 v2).
Hypothesis advance_related :
  forall v1 v2, R v1 v2 -> R (advance1 v1) (advance2 v2).
Hypothesis func_blind : forall w a b, E a b -> func1 w a = func2 w b.

Lemma batch_loop_related : forall remaining w v1 v2 st,
  R v1 v2 ->
  exists w' calls1 calls2 ret,
    batch_loop func1 call1 advance1 remaining w v1 st = (w', calls1, ret)
    /\ batch_loop func2 call2 advance2 remaining w v2 st = (w', calls2, ret)
    /\ Forall2 E calls1 calls2.
Proof.
  induction remaining as [|r IH]; intros w v1 v2 st HR.
  - exists w, [], [], st. repeat split. constructor.
  - cbn [batch_loop].
    rewrite <- (func_blind w _ _ (call_related _ _ HR)).
    destruct (func1 w (call1 v1)) as [w1 st1].
    destruct (st1 =? 0).
    + destruct (IH w1 _ _ (Init st1) (advance_related _ _ HR))
        as (w' & c1 & c2 & ret & H1 & H2 & HF).
      rewrite H1, H2.
      exists w', (call1 v1 :: c1), (call2 v2 :: c2), ret.
      repeat split. constructor; [now apply call_related | exact HF].
    + exists w1, [call1 v1], [call2 v2], (Init st1).
      repeat split. repeat constructor. now apply call_related.
Qed.

End BatchLoopRelated.

(** Loops built from pointwise equal parts run alike. *)
Lemma batch_loop_ext {World Vars Args : Type}
    (func1 func2 : World -> Args -> World * Z)
    (call1 call2 : Vars -> Args) (advance1 advance2 : Vars -> Vars) :
  (forall w a, func1 w a = func2 w a) ->
  (forall v, call1 v = call2 v) ->
  (forall v, advance1 v = advance2 v) ->
  forall remaining w v st,
    batch_loop func1 call1 advance1 remaining w v st
    = batch_loop func2 call2 advance2 remaining w v st.
Proof.
  intros Hf Hc Ha. induction remaining as [|r IH]; intros w v st;
    [reflexivity|].
  cbn [batch_loop]. rewrite Hf, Hc, Ha.
  destruct (func2 w (call2 v)) as [w1 st1].
  destruct (st1 =? 0); [|reflexivity]. now rewrite IH.
Qed.


(* ===================================================================== *)
(** * Part IX. Pointer arithmetic of the dispatchers                     *)
(* ===================================================================== *)

Lemma ptr_add_0 p : ptr_add p 0 = p.
Proof. destruct p as [t b o]. unfold ptr_add. simpl. now rewrite Z.add_0_r. Qed.

Lemma ptr_add_add p a b : ptr_add (ptr_add p a) b = ptr_add p (a + b).
Proof. unfold ptr_add. simpl. now rewrite Z.add_assoc. Qed.

Lemma ptr_add_cast t a n : ptr_add (reinterpret_cast t a) n = Ptr t a n.
Proof. reflexivity. Qed.

Lemma address_ptr t a n : address (Ptr t a n) = a + sizeof t * n.
Proof. reflexivity. Qed.

Lemma ternary_min m n : (if m <? n then m else n) = Z.min m n.
Proof. destruct (Z.ltb_spec m n); lia. Qed.

Lemma factor_stride_exact job dim k :
  int_range (factor_stride job dim k) ->
  (if Ascii.eqb job "A" then int_mul dim dim
   else if Ascii.eqb job "S" then int_mul dim k
   else 0) = factor_stride job dim k.
Proof.
  unfold factor_stride. intros Hr.
  destruct (Ascii.eqb job "A"); [now apply int_mul_exact|].
  destruct (Ascii.eqb job "S"); [now apply int_mul_exact|].
  reflexivity.
Qed.

(** After [j] successful items every SVD pointer stands [j] strides past
    where it started. *)
Lemma gesvd_advance_iter jobu jobvt m n v0 (j : nat) :
  Nat.iter j (Cuda.gesvd_advance jobu jobvt m n) v0
  = (let k := if m <? n then m else n in
     {| sA := ptr_add (sA v0) (Z.of_nat j * int_mul m n);
        sS := ptr_add (sS v0) (Z.of_nat j * k);
        sU := ptr_add (sU v0)
                (Z.of_nat j * (if Ascii.eqb jobu "A" then int_mul m m
                               else if Ascii.eqb jobu "S" then int_mul m k
                               else 0));
        sVT := ptr_add (sVT v0)
                 (Z.of_nat j * (if Ascii.eqb jobvt "A" then int_mul n n
                                else if Ascii.eqb jobvt "S" then int_mul n k
                                else 0));
        sInfo := ptr_add (sInfo v0) (Z.of_nat j) |}).
Proof.
  induction j as [|j IH].
  - simpl. rewrite !ptr_add_0. now destruct v0.
  - rewrite Nat.iter_succ, IH. cbv zeta. unfold Cuda.gesvd_advance.
    cbn [sA sS sU sVT sInfo]. rewrite !ptr_add_add.
    f_equal; f_equal; lia.
Qed.

(** The same for the three pointers of a QR dispatcher, whatever the two
    strides [da] and [dtau] are. *)
Lemma qr_advance_iter (adv : qr_vars -> qr_vars) (da dtau : Z) :
  (forall v, adv v = {| qA := ptr_add (qA v) da;
                        qTau := ptr_add (qTau v) dtau;
                        qInfo := ptr_add (qInfo v) 1 |}) ->
  forall v0 (j : nat),
    Nat.iter j adv v0
    = {| qA := ptr_add (qA v0) (Z.of_nat j * da);
         qTau := ptr_add (qTau v0) (Z.of_nat j * dtau);
         qInfo := ptr_add (qInfo v0) (Z.of_nat j) |}.
Proof.
  intros Hadv v0 j. induction j as [|j IH].
  - simpl. rewrite !ptr_add_0. now destruct v0.
  - rewrite Nat.iter_succ, IH, Hadv. cbn [qA qTau qInfo].
    rewrite !ptr_add_add. f_equal; f_equal; lia.
Qed.

Lemma data_type_id T : Hip.data_type T = T.
Proof. now destruct T. Qed.

(* ===================================================================== *)
(** * Part X. The batched dispatchers                                    *)
(* ===================================================================== *)

Section CudaGesvd.
Context {World : Type} {lib : Cuda.cusolver World}.
Variables (T : elem) (handle : Z) (jobu jobvt : ascii).
Variables (m n a_ptr s_ptr u_ptr vt_ptr w_ptr buffersize info_ptr : Z).

Abbreviation sv_call := (Cuda.gesvd_call T handle jobu jobvt m n w_ptr buffersize).
Abbreviation sv_adv := (Cuda.gesvd_advance jobu jobvt m n).
Abbreviation sv_init := (Cuda.gesvd_init T a_ptr s_ptr u_ptr vt_ptr info_ptr).

(** The argument list of SVD item [j], with the strides as the code
    computes them. *)
Lemma gesvd_item_eq (j : nat) :
  item sv_call sv_adv sv_init j
  = (let k := if m <? n then m else n in
     let i := Z.of_nat j in
     {| sv_handle := handle; sv_jobu := jobu; sv_jobvt := jobvt;
        sv_m := m; sv_n := n;
        sv_A := Ptr (c_elem T) a_ptr (i * int_mul m n);
        sv_lda := m;
        sv_S := Ptr (c_elem (Cuda.real_type T)) s_ptr (i * k);
        sv_U := Ptr (c_elem T) u_ptr
                  (i * (if Ascii.eqb jobu "A" then int_mul m m
                        else if Ascii.eqb jobu "S" then int_mul m k
                        else 0));
        sv_ldu := m;
        sv_VT := Ptr (c_elem T) vt_ptr
                   (i * (if Ascii.eqb jobvt "A" then int_mul n n
                         else if Ascii.eqb jobvt "S" then int_mul n k
                         else 0));
        sv_ldvt := n;
        sv_work := Ptr (c_elem T) w_ptr 0; sv_lwork := buffersize;
        sv_rwork := None;
        sv_info := Ptr c_int info_ptr i |}).
Proof.
  unfold item. rewrite gesvd_advance_iter. reflexivity.
Qed.

(** C2. In a batch that [gesvd_loop] completes with status 0, call [i]
    (for every [0 <= i < batch_size]) is made, and it receives the matrix
    at [a_ptr + i*m*n] elements, the singular values at
    [s_ptr + i*min(m,n)] elements, the info slot at [info_ptr + i], [U] at
    [u_ptr] advanced by [i] times [m*m] for jobu ['A'], [m*min(m,n)] for
    ['S'] and 0 otherwise, and [VT] at [vt_ptr] advanced by [i] times
    [n*n] for jobvt ['A'], [n*min(m,n)] for ['S'] and 0 otherwise.  The
    strides are those of the mathematical products as long as the [int]
    products the code computes do not overflow. *)
Theorem gesvd_loop_item_addresses (batch_size : Z) (w w' : World)
    (calls : list gesvd_args) :
  int_range (m * n) ->
  int_range (factor_stride jobu m (Z.min m n)) ->
  int_range (factor_stride jobvt n (Z.min m n)) ->
  Cuda.gesvd_loop T handle jobu jobvt m n a_ptr s_ptr u_ptr vt_ptr
    w_ptr buffersize info_ptr batch_size w = (w', calls, Init 0) ->
  length calls = Z.to_nat batch_size
  /\ forall i : Z, 0 <= i < batch_size ->
       exists c, calls !! Z.to_nat i = Some c
         /\ sv_A c = Ptr (c_elem T) a_ptr (i * (m * n))
         /\ address (sv_A c) = a_ptr + sizeof (c_elem T) * (i * (m * n))
         /\ sv_S c = Ptr (c_elem (Cuda.real_type T)) s_ptr (i * Z.min m n)
         /\ sv_info c = Ptr c_int info_ptr i
         /\ sv_U c = Ptr (c_elem T) u_ptr (i * factor_stride jobu m (Z.min m n))
         /\ sv_VT c = Ptr (c_elem T) vt_ptr (i * factor_stride jobvt n (Z.min m n)).
Proof.
  intros Hmn Hu Hvt Hrun. unfold Cuda.gesvd_loop in Hrun.
  assert (Hlen : batch_size <= 0 \/ length calls = Z.to_nat batch_size).
  { destruct (Z.le_gt_cases batch_size 0) as [|Hpos]; [now left|right].
    eapply batch_loop_success; [exact Hrun| unfold trip_count; lia | reflexivity]. }
  split.
  - destruct Hlen as [Hle|]; [|assumption].
    unfold trip_count in Hrun. replace (Z.to_nat batch_size) with O in * by lia.
    rewrite batch_loop_0 in Hrun. discriminate Hrun.
  - intros i Hi. destruct Hlen as [|Hlen]; [lia|].
    destruct (lookup_lt_is_Some_2 calls (Z.to_nat i)) as [c Hc]; [lia|].
    exists c. split; [exact Hc|].
    rewrite (batch_loop_call_at _ _ _ _ _ _ _ _ _ _ _ _ Hrun Hc), gesvd_item_eq.
    cbv zeta. cbn [sv_A sv_S sv_info sv_U sv_VT].
    rewrite !ternary_min, (factor_stride_exact _ _ _ Hu),
      (factor_stride_exact _ _ _ Hvt), (int_mul_exact _ _ Hmn), Z2Nat.id by lia.
    rewrite address_ptr. repeat split; reflexivity.
Qed.

End CudaGesvd.

Lemma gesvd_loop_item_addresses_witness :
  exists c,
    run_calls (Cuda.gesvd_loop (lib := Sample.cusolver_scripted 9 1)
                 complex64 77 "A" "S" 3 2 1000 2000 3000 4000 5000 64 6000 3 0%nat)
      !! 2%nat = Some c
    /\ sv_A c = Ptr (c_elem complex64) 1000 12
    /\ address (sv_A c) = 1096
    /\ sv_S c = Ptr (c_elem float) 2000 4
    /\ sv_info c = Ptr c_int 6000 2
    /\ sv_U c = Ptr (c_elem complex64) 3000 18
    /\ sv_VT c = Ptr (c_elem complex64) 4000 8.
Proof.
  destruct (gesvd_loop_item_addresses (lib := Sample.cusolver_scripted 9 1)
              complex64 77 "A" "S" 3 2 1000 2000 3000 4000 5000 64 6000 3
              0%nat 3%nat
              (run_calls (Cuda.gesvd_loop (lib := Sample.cusolver_scripted 9 1)
                 complex64 77 "A" "S" 3 2 1000 2000 3000 4000 5000 64 6000 3 0%nat)))
    as [_ H].
  - unfold int_range, int_min, int_max. lia.
  - vm_compute. split; discriminate.
  - vm_compute. split; discriminate.
  - reflexivity.
  - destruct (H 2 ltac:(lia)) as (c & Hc & HA & Haddr & HS & HI & HU & HVT).
    exists c. repeat split; assumption.
Defined.

Section QrItems.
Variables (T : elem) (handle m n k lda origin_n : Z).
Variables (a_ptr tau_ptr w_ptr buffersize info_ptr : Z).

(** The argument lists of item [j] of the four QR loops, with the strides
    as the code computes them. *)
Lemma cuda_geqrf_item_eq (j : nat) :
  item (Cuda.geqrf_call T handle m n lda w_ptr buffersize)
       (Cuda.geqrf_advance m n) (Cuda.geqrf_init T a_ptr tau_ptr info_ptr) j
  = {| qr_handle := handle; qr_m := m; qr_n := n;
       qr_A := Ptr (c_elem T) a_ptr (Z.of_nat j * int_mul m n);
       qr_lda := lda;
       qr_tau := Ptr (c_elem T) tau_ptr (Z.of_nat j * (if m <? n then m else n));
       qr_work := Ptr (c_elem T) w_ptr 0; qr_lwork := buffersize;
       qr_info := Ptr c_int info_ptr (Z.of_nat j) |}.
Proof.
  unfold item.
  rewrite (qr_advance_iter _ (int_mul m n) (if m <? n then m else n))
    by reflexivity.
  reflexivity.
Qed.

Lemma hip_geqrf_item_eq (j : nat) :
  item (Hip.geqrf_call T handle m n lda w_ptr buffersize)
       (Hip.geqrf_advance m n) (Hip.geqrf_init T a_ptr tau_ptr info_ptr) j
  = {| qr_handle := handle; qr_m := m; qr_n := n;
       qr_A := Ptr (c_elem T) a_ptr (Z.of_nat j * int_mul m n);
       qr_lda := lda;
       qr_tau := Ptr (c_elem T) tau_ptr (Z.of_nat j * (if m <? n then m else n));
       qr_work := Ptr (c_elem T) w_ptr 0; qr_lwork := buffersize;
       qr_info := Ptr c_int info_ptr (Z.of_nat j) |}.
Proof.
  unfold item.
  rewrite (qr_advance_iter _ (int_mul m n) (if m <? n then m else n))
    by reflexivity.
  unfold Hip.geqrf_call, Hip.geqrf_init. rewrite data_type_id. reflexivity.
Qed.

Lemma cuda_orgqr_item_eq (j : nat) :
  item (Cuda.orgqr_call T handle m n k lda w_ptr buffersize)
       (Cuda.orgqr_advance m k origin_n)
       (Cuda.orgqr_init T a_ptr tau_ptr info_ptr) j
  = {| og_handle := handle; og_m := m; og_n := n; og_k := k;
       og_A := Ptr (c_elem T) a_ptr (Z.of_nat j * int_mul m origin_n);
       og_lda := lda;
       og_tau := Ptr (c_elem T) tau_ptr (Z.of_nat j * k);
       og_work := Ptr (c_elem T) w_ptr 0; og_lwork := buffersize;
       og_info := Ptr c_int info_ptr (Z.of_nat j) |}.
Proof.
  unfold item.
  rewrite (qr_advance_iter _ (int_mul m origin_n) k) by reflexivity.
  reflexivity.
Qed.

Lemma hip_orgqr_item_eq (j : nat) :
  item (Hip.orgqr_call T handle m n k lda w_ptr buffersize)
       (Hip.orgqr_advance m k origin_n)
       (Hip.orgqr_init T a_ptr tau_ptr info_ptr) j
  = {| og_handle := handle; og_m := m; og_n := n; og_k := k;
       og_A := Ptr (c_elem T) a_ptr (Z.of_nat j * int_mul m origin_n);
       og_lda := lda;
       og_tau := Ptr (c_elem T) tau_ptr (Z.of_nat j * k);
       og_work := Ptr (c_elem T) w_ptr 0; og_lwork := buffersize;
       og_info := Ptr c_int info_ptr (Z.of_nat j) |}.
Proof.
  unfold item.
  rewrite (qr_advance_iter _ (int_mul m origin_n) k) by reflexivity.
  reflexivity.
Qed.

End QrItems.

(** ** Halting at the first failure *)

(** C1. Each loop-based dispatcher ([gesvd_loop], [geqrf_loop] and
    [orgqr_loop] as compiled for CUDA, and the two QR loops as compiled
    for HIP) halts at the first failure: if the vendor function returns 0
    for items [0 .. k-1] and a status [s <> 0] for item [k < batch_size],
    the vendor function is invoked exactly [k+1] times, on items [0 .. k]
    and on no later item, and [s] is returned. *)
Theorem dispatchers_halt_at_first_failure
    {World : Type} (cu : Cuda.cusolver World) (hip : Hip.hipsolver World)
    (T : elem) (handle : Z) (jobu jobvt : ascii)
    (m n k a_ptr lda s_ptr u_ptr vt_ptr tau_ptr w_ptr buffersize info_ptr
     batch_size origin_n : Z) (w : World) :
  halts_at_first_failure
    (item_status (Cuda.gesvd_func T)
       (Cuda.gesvd_call T handle jobu jobvt m n w_ptr buffersize)
       (Cuda.gesvd_advance jobu jobvt m n) w
       (Cuda.gesvd_init T a_ptr s_ptr u_ptr vt_ptr info_ptr))
    (item (Cuda.gesvd_call T handle jobu jobvt m n w_ptr buffersize)
       (Cuda.gesvd_advance jobu jobvt m n)
       (Cuda.gesvd_init T a_ptr s_ptr u_ptr vt_ptr info_ptr))
    (Cuda.gesvd_loop T handle jobu jobvt m n a_ptr s_ptr u_ptr vt_ptr
       w_ptr buffersize info_ptr batch_size w)
    batch_size
  /\ halts_at_first_failure
    (item_status (Cuda.geqrf_func T)
       (Cuda.geqrf_call T handle m n lda w_ptr buffersize)
       (Cuda.geqrf_advance m n) w (Cuda.geqrf_init T a_ptr tau_ptr info_ptr))
    (item (Cuda.geqrf_call T handle m n lda w_ptr buffersize)
       (Cuda.geqrf_advance m n) (Cuda.geqrf_init T a_ptr tau_ptr info_ptr))
    (Cuda.geqrf_loop T handle m n a_ptr lda tau_ptr w_ptr buffersize
       info_ptr batch_size w)
    batch_size
  /\ halts_at_first_failure
    (item_status (Cuda.orgqr_func T)
       (Cuda.orgqr_call T handle m n k lda w_ptr buffersize)
       (Cuda.orgqr_advance m k origin_n) w
       (Cuda.orgqr_init T a_ptr tau_ptr info_ptr))
    (item (Cuda.orgqr_call T handle m n k lda w_ptr buffersize)
       (Cuda.orgqr_advance m k origin_n)
       (Cuda.orgqr_init T a_ptr tau_ptr info_ptr))
    (Cuda.orgqr_loop T handle m n k a_ptr lda tau_ptr w_ptr buffersize
       info_ptr batch_size origin_n w)
    batch_size
  /\ halts_at_first_failure
    (item_status (Hip.geqrf_func (Hip.data_type T))
       (Hip.geqrf_call T handle m n lda w_ptr buffersize)
       (Hip.geqrf_advance m n) w (Hip.geqrf_init T a_ptr tau_ptr info_ptr))
    (item (Hip.geqrf_call T handle m n lda w_ptr buffersize)
       (Hip.geqrf_advance m n) (Hip.geqrf_init T a_ptr tau_ptr info_ptr))
    (Hip.geqrf_loop T handle m n a_ptr lda tau_ptr w_ptr buffersize
       info_ptr batch_size w)
    batch_size
  /\ halts_at_first_failure
    (item_status (Hip.orgqr_func T)
       (Hip.orgqr_call T handle m n k lda w_ptr buffersize)
       (Hip.orgqr_advance m k origin_n) w
       (Hip.orgqr_init T a_ptr tau_ptr info_ptr))
    (item (Hip.orgqr_call T handle m n k lda w_ptr buffersize)
       (Hip.orgqr_advance m k origin_n)
       (Hip.orgqr_init T a_ptr tau_ptr info_ptr))
    (Hip.orgqr_loop T handle m n k a_ptr lda tau_ptr w_ptr buffersize
       info_ptr batch_size origin_n w)
    batch_size.
Proof.
  split; [|split; [|split; [|split]]];
    apply batch_loop_halts_at_first_failure.
Qed.

Lemma dispatchers_halt_at_first_failure_witness :
  let r := Cuda.gesvd_loop (lib := Sample.cusolver_scripted 2 7)
             float 1 "A" "A" 3 2 1000 2000 3000 4000 5000 64 6000 5 0%nat in
  length (run_calls r) = 3%nat /\ run_status r = Init 7.
Proof.
  destruct (dispatchers_halt_at_first_failure
              (Sample.cusolver_scripted 2 7) (Sample.hipsolver_scripted 2 7)
              float 1 "A" "A" 3 2 2 1000 3 2000 3000 4000 7000 5000 64 6000
              5 10 0%nat) as [H _].
  destruct (H 2%nat 7) as (Hlen & _ & Hret).
  - lia.
  - intros j Hj. destruct j as [|[|j]]; [reflexivity|reflexivity|lia].
  - reflexivity.
  - discriminate.
  - split; assumption.
Defined.

(** ** The two variants of the Q-reconstruction dispatcher *)

(** The claim that one variant advances the matrix by [m * n] and the
    other by [m * origin_n] fails at [m = 4], [n = 6], [origin_n = 10]:
    over a batch of three, both variants pass the matrix at element
    offsets 0, 40, 80, and neither ever advances by [4 * 6]. *)
Lemma orgqr_variants_do_not_differ :
  let m := 4 in
  let n := 6 in
  let origin_n := 10 in
  let v := Cuda.orgqr_init float 1000 2000 4000 in
  map (fun c => offset (og_A c))
    (run_calls (Cuda.orgqr_loop (lib := Sample.cusolver_scripted 9 1)
                  float 1 m n n 1000 m 2000 3000 64 4000 3 origin_n 0%nat))
  = [0; 40; 80]
  /\ map (fun c => offset (og_A c))
       (run_calls (Hip.orgqr_loop (lib := Sample.hipsolver_scripted 9 1)
                     float 1 m n n 1000 m 2000 3000 64 4000 3 origin_n 0%nat))
     = [0; 40; 80]
  /\ ~ ((matrix_advance (Cuda.orgqr_advance m n origin_n) v = m * n
         /\ matrix_advance (Hip.orgqr_advance m n origin_n) v = m * origin_n)
        \/ (matrix_advance (Cuda.orgqr_advance m n origin_n) v = m * origin_n
            /\ matrix_advance (Hip.orgqr_advance m n origin_n) v = m * n)).
Proof.
  cbv zeta. split; [reflexivity|]. split; [reflexivity|].
  vm_compute. intros [[H _]|[_ H]]; discriminate H.
Qed.

(** C3, as the code has it.  Both variants of [orgqr_loop] advance the
    matrix pointer by [m * origin_n] elements per item: call [i] of either
    receives the matrix at [a_ptr + i * m * origin_n] elements, and with
    vendor entry points that behave alike the two variants make the same
    calls, leave the same world and return the same status. *)
Theorem orgqr_loop_variants_agree
    {World : Type} (cu : Cuda.cusolver World) (hip : Hip.hipsolver World)
    (T : elem) (handle m n k a_ptr lda tau_ptr w_ptr buffersize info_ptr
     batch_size origin_n : Z) (w : World) :
  int_range (m * origin_n) ->
  (forall v,
     matrix_advance (Cuda.orgqr_advance m k origin_n) v = m * origin_n
     /\ matrix_advance (Hip.orgqr_advance m k origin_n) v = m * origin_n)
  /\ (forall (i : nat) c,
        run_calls (Cuda.orgqr_loop T handle m n k a_ptr lda tau_ptr w_ptr
                     buffersize info_ptr batch_size origin_n w) !! i = Some c ->
        og_A c = Ptr (c_elem T) a_ptr (Z.of_nat i * (m * origin_n)))
  /\ (forall (i : nat) c,
        run_calls (Hip.orgqr_loop T handle m n k a_ptr lda tau_ptr w_ptr
                     buffersize info_ptr batch_size origin_n w) !! i = Some c ->
        og_A c = Ptr (c_elem T) a_ptr (Z.of_nat i * (m * origin_n)))
  /\ ((forall w' a, Cuda.orgqr_func T w' a = Hip.orgqr_func T w' a) ->
      Cuda.orgqr_loop T handle m n k a_ptr lda tau_ptr w_ptr buffersize
        info_ptr batch_size origin_n w
      = Hip.orgqr_loop T handle m n k a_ptr lda tau_ptr w_ptr buffersize
          info_ptr batch_size origin_n w).
Proof.
  intros Hr. split; [|split; [|split]].
  - intros v. unfold matrix_advance, Cuda.orgqr_advance, Hip.orgqr_advance.
    cbn [qA ptr_add offset]. rewrite (int_mul_exact _ _ Hr). lia.
  - intros i c Hc. unfold Cuda.orgqr_loop, run_calls in Hc.
    destruct (batch_loop _ _ _ _ _ _ _) as [[w1 calls] ret] eqn:Hrun.
    cbn [fst snd] in Hc.
    rewrite (batch_loop_call_at _ _ _ _ _ _ _ _ _ _ _ _ Hrun Hc),
      cuda_orgqr_item_eq, (int_mul_exact _ _ Hr).
    reflexivity.
  - intros i c Hc. unfold Hip.orgqr_loop, run_calls in Hc.
    destruct (batch_loop _ _ _ _ _ _ _) as [[w1 calls] ret] eqn:Hrun.
    cbn [fst snd] in Hc.
    rewrite (batch_loop_call_at _ _ _ _ _ _ _ _ _ _ _ _ Hrun Hc),
      hip_orgqr_item_eq, (int_mul_exact _ _ Hr).
    reflexivity.
  - intros Hsame. unfold Cuda.orgqr_loop, Hip.orgqr_loop.
    apply batch_loop_ext; [exact Hsame | reflexivity | reflexivity].
Qed.

Lemma orgqr_loop_variants_agree_witness :
  matrix_advance (Cuda.orgqr_advance 4 6 10)
    (Cuda.orgqr_init float 1000 2000 4000) = 40
  /\ matrix_advance (Hip.orgqr_advance 4 6 10)
       (Cuda.orgqr_init float 1000 2000 4000) = 40.
Proof.
  destruct (orgqr_loop_variants_agree
              (Sample.cusolver_scripted 9 1) (Sample.hipsolver_scripted 9 1)
              float 1 4 6 6 1000 4 2000 3000 64 4000 3 10 0%nat) as [H _].
  - unfold int_range, int_min, int_max. lia.
  - exact (H (Cuda.orgqr_init float 1000 2000 4000)).
Defined.

(** ** The HIP build *)

(** C7. As compiled for HIP, [gesvd_loop] returns 0 at once for every
    input: it calls no vendor function and leaves the world, and with it
    every buffer, as it found it. *)
Theorem hip_gesvd_loop_is_noop {World : Type} (T : elem) (handle : Z)
    (jobu jobvt : ascii) (m n a_ptr s_ptr u_ptr vt_ptr w_ptr buffersize
     info_ptr batch_size : Z) (w : World) :
  let r := Hip.gesvd_loop T handle jobu jobvt m n a_ptr s_ptr u_ptr vt_ptr
             w_ptr buffersize info_ptr batch_size w in
  run_status r = Init 0 /\ run_calls r = [] /\ run_world r = w.
Proof. cbv zeta. repeat split. Qed.

(** The claim that the HIP QR dispatchers ignore [w_ptr], [buffersize]
    and [info_ptr] fails.  Against a vendor that rejects a workspace
    smaller than 64 with status 3, [orgqr_loop] and [geqrf_loop] called
    with [buffersize = 64] make three calls and return 0, and called with
    [buffersize = 0], all else equal, make one call and return 3; and
    calls that differ only in [w_ptr] or only in [info_ptr] hand
    different argument lists to the vendor. *)
Lemma hip_qr_loops_do_not_ignore_aux :
  let hip := Sample.hipsolver_checks_lwork 64 3 in
  let og := fun w_ptr buffersize info_ptr =>
    Hip.orgqr_loop (lib := hip) float 1 4 6 6 1000 4 2000
      w_ptr buffersize info_ptr 3 10 tt in
  let qr := fun w_ptr buffersize info_ptr =>
    Hip.geqrf_loop (lib := hip) float 1 4 6 1000 4 2000
      w_ptr buffersize info_ptr 3 tt in
  (run_status (og 3000 64 4000) = Init 0
   /\ length (run_calls (og 3000 64 4000)) = 3%nat
   /\ run_status (og 3000 0 4000) = Init 3
   /\ length (run_calls (og 3000 0 4000)) = 1%nat
   /\ run_calls (og 3000 64 4000) <> run_calls (og 3008 64 4000)
   /\ run_calls (og 3000 64 4000) <> run_calls (og 3000 64 4004))
  /\ (run_status (qr 3000 64 4000) = Init 0
      /\ length (run_calls (qr 3000 64 4000)) = 3%nat
      /\ run_status (qr 3000 0 4000) = Init 3
      /\ length (run_calls (qr 3000 0 4000)) = 1%nat
      /\ run_calls (qr 3000 64 4000) <> run_calls (qr 3008 64 4000)
      /\ run_calls (qr 3000 64 4000) <> run_calls (qr 3000 64 4004)).
Proof.
  cbv zeta. split.
  - repeat split; try reflexivity; vm_compute; discriminate.
  - repeat split; try reflexivity; vm_compute; discriminate.
Qed.

(** C8, as the code has it.  As compiled for HIP, [orgqr_loop] passes the
    three auxiliary parameters on: call [i] receives the workspace pointer
    [w_ptr], the workspace size [buffersize] and the info pointer
    [info_ptr + i].  They enter nothing else: when the vendor function
    cannot tell apart argument lists that agree on everything else, two
    invocations that differ only in [w_ptr], [buffersize] or [info_ptr]
    leave the same world, return the same status and make calls that agree
    on every other argument. *)
Theorem hip_orgqr_loop_forwards_aux
    {World : Type} (hip : Hip.hipsolver World) (T : elem)
    (handle m n k a_ptr lda tau_ptr batch_size origin_n : Z)
    (w_ptr buffersize info_ptr w_ptr' buffersize' info_ptr' : Z) (w : World) :
  let r := Hip.orgqr_loop T handle m n k a_ptr lda tau_ptr
             w_ptr buffersize info_ptr batch_size origin_n w in
  let r' := Hip.orgqr_loop T handle m n k a_ptr lda tau_ptr
              w_ptr' buffersize' info_ptr' batch_size origin_n w in
  (forall (i : nat) c, run_calls r !! i = Some c ->
     og_work c = Ptr (c_elem T) w_ptr 0
     /\ og_lwork c = buffersize
     /\ og_info c = Ptr c_int info_ptr (Z.of_nat i))
  /\ ((forall w0 a b, orgqr_same_but_aux a b ->
         Hip.orgqr_func T w0 a = Hip.orgqr_func T w0 b) ->
      run_world r = run_world r'
      /\ run_status r = run_status r'
      /\ Forall2 orgqr_same_but_aux (run_calls r) (run_calls r')).
Proof.
  cbv zeta. split.
  - intros i c Hc. unfold Hip.orgqr_loop, run_calls in Hc.
    destruct (batch_loop _ _ _ _ _ _ _) as [[w1 calls] ret] eqn:Hrun.
    cbn [fst snd] in Hc.
    rewrite (batch_loop_call_at _ _ _ _ _ _ _ _ _ _ _ _ Hrun Hc),
      hip_orgqr_item_eq.
    repeat split.
  - intros Hblind. unfold Hip.orgqr_loop.
    destruct (batch_loop_related
                (Hip.orgqr_func T) (Hip.orgqr_func T)
                (Hip.orgqr_call T handle m n k lda w_ptr buffersize)
                (Hip.orgqr_call T handle m n k lda w_ptr' buffersize')
                (Hip.orgqr_advance m k origin_n)
                (Hip.orgqr_advance m k origin_n)
                (fun v1 v2 => qA v1 = qA v2 /\ qTau v1 = qTau v2)
                orgqr_same_but_aux)
      with (remaining := trip_count batch_size) (w := w) (st := Uninit)
           (v1 := Hip.orgqr_init T a_ptr tau_ptr info_ptr)
           (v2 := Hip.orgqr_init T a_ptr tau_ptr info_ptr')
      as (w' & c1 & c2 & ret & H1 & H2 & HF).
    + intros v1 v2 [HA HT]. unfold orgqr_same_but_aux, Hip.orgqr_call.
      cbn. repeat split; assumption.
    + intros v1 v2 [HA HT]. unfold Hip.orgqr_advance. cbn.
      now rewrite HA, HT.
    + exact Hblind.
    + split; reflexivity.
    + rewrite H1, H2. unfold run_world, run_status, run_calls. cbn.
      repeat split. exact HF.
Qed.

Lemma hip_orgqr_loop_forwards_aux_witness :
  let r := Hip.orgqr_loop (lib := Sample.hipsolver_scripted 1 5)
             float 1 4 6 6 1000 4 2000 3000 64 4000 3 10 0%nat in
  let r' := Hip.orgqr_loop (lib := Sample.hipsolver_scripted 1 5)
              float 1 4 6 6 1000 4 2000 3008 0 4004 3 10 0%nat in
  run_world r = run_world r'
  /\ run_status r = run_status r'
  /\ Forall2 orgqr_same_but_aux (run_calls r) (run_calls r').
Proof.
  destruct (hip_orgqr_loop_forwards_aux (Sample.hipsolver_scripted 1 5)
              float 1 4 6 6 1000 4 2000 3 10 3000 64 4000 3008 0 4004 0%nat)
    as [_ H].
  apply H. intros w0 a b _. reflexivity.
Defined.

(** ** Empty batches *)

(** C9. In each dispatcher that calls a vendor function, a batch with
    [batch_size <= 0] calls nothing and returns [status] as declared,
    never assigned; the returned value is an assigned one exactly when
    [batch_size >= 1]. *)
Theorem empty_batch_returns_unassigned_status
    {World : Type} (cu : Cuda.cusolver World) (hip : Hip.hipsolver World)
    (T : elem) (handle : Z) (jobu jobvt : ascii)
    (m n k a_ptr lda s_ptr u_ptr vt_ptr tau_ptr w_ptr buffersize info_ptr
     batch_size origin_n : Z) (w : World) :
  undefined_when_empty w
    (Cuda.gesvd_loop T handle jobu jobvt m n a_ptr s_ptr u_ptr vt_ptr
       w_ptr buffersize info_ptr batch_size w) batch_size
  /\ undefined_when_empty w
       (Cuda.geqrf_loop T handle m n a_ptr lda tau_ptr w_ptr buffersize
          info_ptr batch_size w) batch_size
  /\ undefined_when_empty w
       (Cuda.orgqr_loop T handle m n k a_ptr lda tau_ptr w_ptr buffersize
          info_ptr batch_size origin_n w) batch_size
  /\ undefined_when_empty w
       (Hip.geqrf_loop T handle m n a_ptr lda tau_ptr w_ptr buffersize
          info_ptr batch_size w) batch_size
  /\ undefined_when_empty w
       (Hip.orgqr_loop T handle m n k a_ptr lda tau_ptr w_ptr buffersize
          info_ptr batch_size origin_n w) batch_size.
Proof.
  split; [|split; [|split; [|split]]];
    apply batch_loop_undefined_when_empty.
Qed.

Lemma empty_batch_returns_unassigned_status_witness :
  Cuda.geqrf_loop (lib := Sample.cusolver_scripted 9 1)
    double 1 4 6 1000 4 2000 3000 64 4000 0 0%nat = (0%nat, [], Uninit)
  /\ Hip.orgqr_loop (lib := Sample.hipsolver_scripted 9 1)
       double 1 4 6 6 1000 4 2000 3000 64 4000 (-2) 10 0%nat
     = (0%nat, [], Uninit)
  /\ exists s, run_status
       (Cuda.gesvd_loop (lib := Sample.cusolver_scripted 9 1)
          double 1 "N" "N" 4 6 1000 2000 3000 4000 5000 64 6000 2 0%nat)
       = Init s.
Proof.
  split; [|split].
  - destruct (empty_batch_returns_unassigned_status
                (Sample.cusolver_scripted 9 1) (Sample.hipsolver_scripted 9 1)
                double 1 "N" "N" 4 6 6 1000 4 2000 3000 4000 2000 3000 64 4000
                0 10 0%nat) as (_ & [H _] & _).
    apply H. lia.
  - destruct (empty_batch_returns_unassigned_status
                (Sample.cusolver_scripted 9 1) (Sample.hipsolver_scripted 9 1)
                double 1 "N" "N" 4 6 6 1000 4 2000 3000 4000 2000 3000 64 4000
                (-2) 10 0%nat) as (_ & _ & _ & _ & [H _]).
    apply H. lia.
  - destruct (empty_batch_returns_unassigned_status
                (Sample.cusolver_scripted 9 1) (Sample.hipsolver_scripted 9 1)
                double 1 "N" "N" 4 6 6 1000 4 2000 3000 4000 5000 5000 64 6000
                2 10 0%nat) as ([_ [H _]] & _).
    apply H. lia.
Defined.

(** ** The matrix stride of the QR factorisation *)

Section BatchLoopReach.
Context {World Vars Args : Type}.
Variable func : World -> Args -> World * Z.
Variable call : Vars -> Args.
Variable advance : Vars -> Vars.

(** An item within the batch is called once every item before it has
    been given status 0. *)
Lemma batch_loop_reaches (i : nat) : forall remaining w v st,
  (i < remaining)%nat ->
  (forall j, (j < i)%nat -> item_status func call advance w v j = 0) ->
  snd (fst (batch_loop func call advance remaining w v st)) !! i
  = Some (item call advance v i).
Proof.
  induction i as [|i IH]; intros remaining w v st Hlt Hok;
    (destruct remaining as [|r]; [lia|]); cbn [batch_loop].
  - destruct (func w (call v)) as [w1 st1].
    destruct (st1 =? 0); [|reflexivity].
    destruct (batch_loop func call advance r w1 (advance v) (Init st1))
      as [[w2 calls] ret].
    reflexivity.
  - pose proof (Hok 0%nat ltac:(lia)) as H0. rewrite item_status_0 in H0.
    destruct (func w (call v)) as [w1 st1] eqn:E. cbn [snd] in H0. subst st1.
    assert (Ew : w1 = fst (func w (call v))) by (rewrite E; reflexivity).
    rewrite Z.eqb_refl.
    specialize (IH r w1 (advance v) (Init 0) ltac:(lia)).
    destruct (batch_loop func call advance r w1 (advance v) (Init 0))
      as [[w2 calls] ret].
    cbn [fst snd] in *. rewrite <- item_shift. apply IH.
    intros j Hj. rewrite Ew, item_status_shift. apply Hok. lia.
Qed.

End BatchLoopReach.

(** C10. In [geqrf_loop], as compiled for CUDA and as compiled for HIP,
    each completed item moves the matrix pointer by [m * n] elements.
    Item [i] of the batch is called as soon as [i < batch_size] and every
    item before it was given status 0, and the call receives the matrix
    at [a_ptr + i * (m * n)] elements and the leading dimension [lda]
    unchanged; no call receives anything else.  [lda] is passed on to
    every call and has no part in where the next matrix is taken from:
    with any other leading dimension [lda'], call [i] receives the same
    matrix pointer. *)
Theorem geqrf_loop_matrix_stride
    {World : Type} (cu : Cuda.cusolver World) (hip : Hip.hipsolver World)
    (T : elem) (handle m n a_ptr lda lda' tau_ptr w_ptr buffersize info_ptr
     batch_size : Z) (w : World) :
  int_range (m * n) ->
  (forall v, matrix_advance (Cuda.geqrf_advance m n) v = m * n
             /\ matrix_advance (Hip.geqrf_advance m n) v = m * n)
  /\ (forall (i : nat) c,
        run_calls (Cuda.geqrf_loop T handle m n a_ptr lda tau_ptr w_ptr
                     buffersize info_ptr batch_size w) !! i = Some c ->
        qr_A c = Ptr (c_elem T) a_ptr (Z.of_nat i * (m * n))
        /\ qr_lda c = lda
        /\ forall c',
             run_calls (Cuda.geqrf_loop T handle m n a_ptr lda' tau_ptr w_ptr
                          buffersize info_ptr batch_size w) !! i = Some c' ->
             qr_A c' = qr_A c)
  /\ (forall (i : nat) c,
        run_calls (Hip.geqrf_loop T handle m n a_ptr lda tau_ptr w_ptr
                     buffersize info_ptr batch_size w) !! i = Some c ->
        qr_A c = Ptr (c_elem T) a_ptr (Z.of_nat i * (m * n))
        /\ qr_lda c = lda
        /\ forall c',
             run_calls (Hip.geqrf_loop T handle m n a_ptr lda' tau_ptr w_ptr
                          buffersize info_ptr batch_size w) !! i = Some c' ->
             qr_A c' = qr_A c)
  /\ (forall i : nat,
        Z.of_nat i < batch_size ->
        (forall j, (j < i)%nat ->
           item_status (Cuda.geqrf_func T)
             (Cuda.geqrf_call T handle m n lda w_ptr buffersize)
             (Cuda.geqrf_advance m n) w
             (Cuda.geqrf_init T a_ptr tau_ptr info_ptr) j = 0) ->
        exists c,
          run_calls (Cuda.geqrf_loop T handle m n a_ptr lda tau_ptr w_ptr
                       buffersize info_ptr batch_size w) !! i = Some c
          /\ qr_A c = Ptr (c_elem T) a_ptr (Z.of_nat i * (m * n))
          /\ qr_lda c = lda)
  /\ (forall i : nat,
        Z.of_nat i < batch_size ->
        (forall j, (j < i)%nat ->
           item_status (Hip.geqrf_func (Hip.data_type T))
             (Hip.geqrf_call T handle m n lda w_ptr buffersize)
             (Hip.geqrf_advance m n) w
             (Hip.geqrf_init T a_ptr tau_ptr info_ptr) j = 0) ->
        exists c,
          run_calls (Hip.geqrf_loop T handle m n a_ptr lda tau_ptr w_ptr
                       buffersize info_ptr batch_size w) !! i = Some c
          /\ qr_A c = Ptr (c_elem T) a_ptr (Z.of_nat i * (m * n))
          /\ qr_lda c = lda).
Proof.
  intros Hr.
  assert (Hcuda : forall ld (i : nat) c,
            run_calls (Cuda.geqrf_loop T handle m n a_ptr ld tau_ptr w_ptr
                         buffersize info_ptr batch_size w) !! i = Some c ->
            qr_A c = Ptr (c_elem T) a_ptr (Z.of_nat i * (m * n))
            /\ qr_lda c = ld).
  { intros ld i c Hc. unfold Cuda.geqrf_loop, run_calls in Hc.
    destruct (batch_loop _ _ _ _ _ _ _) as [[w1 calls] ret] eqn:Hrun.
    cbn [fst snd] in Hc.
    rewrite (batch_loop_call_at _ _ _ _ _ _ _ _ _ _ _ _ Hrun Hc),
      cuda_geqrf_item_eq, (int_mul_exact _ _ Hr).
    split; reflexivity. }
  assert (Hhip : forall ld (i : nat) c,
            run_calls (Hip.geqrf_loop T handle m n a_ptr ld tau_ptr w_ptr
                         buffersize info_ptr batch_size w) !! i = Some c ->
            qr_A c = Ptr (c_elem T) a_ptr (Z.of_nat i * (m * n))
            /\ qr_lda c = ld).
  { intros ld i c Hc. unfold Hip.geqrf_loop, run_calls in Hc.
    destruct (batch_loop _ _ _ _ _ _ _) as [[w1 calls] ret] eqn:Hrun.
    cbn [fst snd] in Hc.
    rewrite (batch_loop_call_at _ _ _ _ _ _ _ _ _ _ _ _ Hrun Hc),
      hip_geqrf_item_eq, (int_mul_exact _ _ Hr).
    split; reflexivity. }
  split; [|split; [|split; [|split]]].
  - intros v. unfold matrix_advance, Cuda.geqrf_advance, Hip.geqrf_advance.
    cbn [qA ptr_add offset]. rewrite (int_mul_exact _ _ Hr). lia.
  - intros i c Hc. destruct (Hcuda lda i c Hc) as [HA Hl].
    split; [exact HA|]. split; [exact Hl|].
    intros c' Hc'. destruct (Hcuda lda' i c' Hc') as [HA' _]. congruence.
  - intros i c Hc. destruct (Hhip lda i c Hc) as [HA Hl].
    split; [exact HA|]. split; [exact Hl|].
    intros c' Hc'. destruct (Hhip lda' i c' Hc') as [HA' _]. congruence.
  - intros i Hi Hok. eexists. split.
    + unfold Cuda.geqrf_loop, run_calls.
      apply batch_loop_reaches; [unfold trip_count; lia | exact Hok].
    + rewrite cuda_geqrf_item_eq, (int_mul_exact _ _ Hr). split; reflexivity.
  - intros i Hi Hok. eexists. split.
    + unfold Hip.geqrf_loop, run_calls.
      apply batch_loop_reaches; [unfold trip_count; lia | exact Hok].
    + rewrite hip_geqrf_item_eq, (int_mul_exact _ _ Hr). split; reflexivity.
Qed.

Lemma geqrf_loop_matrix_stride_witness :
  (exists c,
     run_calls (Cuda.geqrf_loop (lib := Sample.cusolver_scripted 9 1)
                  complex128 1 4 6 1000 9 2000 3000 64 4000 3 0%nat)
       !! 2%nat = Some c
     /\ qr_A c = Ptr (c_elem complex128) 1000 48 /\ qr_lda c = 9)
  /\ (exists c,
        run_calls (Hip.geqrf_loop (lib := Sample.hipsolver_scripted 9 1)
                     complex128 1 4 6 1000 9 2000 3000 64 4000 3 0%nat)
          !! 2%nat = Some c
        /\ qr_A c = Ptr (c_elem complex128) 1000 48 /\ qr_lda c = 9).
Proof.
  destruct (geqrf_loop_matrix_stride
              (Sample.cusolver_scripted 9 1) (Sample.hipsolver_scripted 9 1)
              complex128 1 4 6 1000 9 4 2000 3000 64 4000 3 0%nat)
    as (_ & _ & _ & Hcuda & Hhip).
  - unfold int_range, int_min, int_max. lia.
  - split.
    + apply (Hcuda 2%nat); [lia|].
      intros j Hj. destruct j as [|[|j]]; [reflexivity|reflexivity|lia].
    + apply (Hhip 2%nat); [lia|].
      intros j Hj. destruct j as [|[|j]]; [reflexivity|reflexivity|lia].
Defined.


(* ===================================================================== *)
(** * Part XI. The soft-link loader                                      *)
(* ===================================================================== *)

Section NameTranslation.
Import Softlink.
Variable q : string.

(** The first dict that has the key decides, and its component 0 is the
    answer. *)
Lemma get_hipfuncname_first before :
  forall (d : gmap string (list string)) after hipname others,
    (forall d' : gmap string (list string), d' ∈ before -> d' !! q = None) ->
    d !! q = Some (hipname :: others) ->
    get_hipfuncname (before ++ d :: after) q = Return hipname.
Proof.
  induction before as [|d0 before IH]; intros d after hipname others Hno Hd.
  - cbn [app get_hipfuncname]. now rewrite Hd.
  - cbn [app get_hipfuncname].
    rewrite (Hno d0) by (apply list_elem_of_here).
    eapply IH; [|exact Hd].
    intros d' Hin. apply Hno. now apply list_elem_of_further.
Qed.

(** With the key in no dict the name comes back as it went in. *)
Lemma get_hipfuncname_absent (table : list (gmap string (list string))) :
  (forall d : gmap string (list string), d ∈ table -> d !! q = None) ->
  get_hipfuncname table q = Return q.
Proof.
  induction table as [|d0 table IH]; intros Hno; [reflexivity|].
  cbn [get_hipfuncname]. rewrite (Hno d0) by (apply list_elem_of_here).
  apply IH. intros d' Hin. apply Hno. now apply list_elem_of_further.
Qed.

End NameTranslation.

(** C4. In a HIP build ([CUPY_HIP_VERSION <> 0]) with the library open,
    [get] looks up, for a qualified name [prefix + name] that is a key of
    some dict of the table, component 0 of the value in the first such
    dict, and for a qualified name that is a key of no dict, the qualified
    name itself. *)
Theorem get_translates_to_first_equivalent
    (CUPY_HIP_VERSION : Z) (table : list (gmap string (list string)))
    (self : Softlink.SoftLink) (lib : gmap string Z) (name : string) :
  CUPY_HIP_VERSION <> 0 ->
  Softlink._cdll self = Some lib ->
  let q := Softlink.prefix self +:+ name in
  (forall before (d : gmap string (list string)) after B1 others,
     table = before ++ d :: after ->
     (forall d' : gmap string (list string), d' ∈ before -> d' !! q = None) ->
     d !! q = Some (B1 :: others) ->
     Softlink.funcname CUPY_HIP_VERSION table self name = Softlink.Return B1
     /\ Softlink.get CUPY_HIP_VERSION table self name
        = Softlink.Return (Softlink.getattr_or_stub lib B1))
  /\ ((forall d : gmap string (list string), d ∈ table -> d !! q = None) ->
      Softlink.funcname CUPY_HIP_VERSION table self name = Softlink.Return q
      /\ Softlink.get CUPY_HIP_VERSION table self name
         = Softlink.Return (Softlink.getattr_or_stub lib q)).
Proof.
  intros Hhip Hlib q.
  assert (Hmode : negb (CUPY_HIP_VERSION =? 0) = true).
  { apply negb_true_iff, Z.eqb_neq, Hhip. }
  split.
  - intros before d after B1 others Htable Hno Hd.
    assert (Hname : Softlink.funcname CUPY_HIP_VERSION table self name
                    = Softlink.Return B1).
    { unfold Softlink.funcname. rewrite Hmode, Htable.
      eapply get_hipfuncname_first; eassumption. }
    split; [exact Hname|].
    unfold Softlink.get. now rewrite Hlib, Hname.
  - intros Hno.
    assert (Hname : Softlink.funcname CUPY_HIP_VERSION table self name
                    = Softlink.Return q).
    { unfold Softlink.funcname. rewrite Hmode.
      now apply get_hipfuncname_absent. }
    split; [exact Hname|].
    unfold Softlink.get. now rewrite Hlib, Hname.
Qed.

Lemma get_translates_to_first_equivalent_witness :
  let self := Softlink.mkSoftLink None "cusolverDn" (Some Sample.libhipsolver) in
  Softlink.funcname 60000000 Sample.mappings self "Sgeqrf"
  = Softlink.Return "hipsolverSgeqrf"%string
  /\ Softlink.get 60000000 Sample.mappings self "Sgeqrf"
     = Softlink.Return (Softlink.symbol_ptr 4096).
Proof.
  destruct (get_translates_to_first_equivalent 60000000 Sample.mappings
              (Softlink.mkSoftLink None "cusolverDn" (Some Sample.libhipsolver))
              Sample.libhipsolver "Sgeqrf") as [H _].
  - lia.
  - reflexivity.
  - apply (H [ {[ "cudaMalloc"%string := ["hipMalloc"%string] ]} ]
             {[ "cusolverDnSgeqrf"%string
                  := ["hipsolverSgeqrf"%string; "rocsolver_sgeqrf"%string] ]}
             [ {[ "cusolverDnSgeqrf"%string := ["hipsolverDnSgeqrf"%string] ]} ]
             "hipsolverSgeqrf"%string ["rocsolver_sgeqrf"%string]).
    + reflexivity.
    + intros d' Hin. apply list_elem_of_singleton in Hin. subst d'.
      vm_compute. reflexivity.
    + vm_compute. reflexivity.
Defined.

(** C5. Both stubs raise, whatever the circumstances: [_fail_unsupported]
    an AssertionError that says the function is not supported in the
    current version of the toolkit, [_fail_not_found] an AssertionError
    that says the function could not be found in the library; both
    messages carry the address of the issue tracker, neither names the
    other cause, a call through either stub pointer leaves the world
    alone, and what the C caller sees is -1, never 0. *)
Theorem stubs_always_raise :
  (exists msg,
      Softlink._fail_unsupported = Softlink.Raise (Softlink.AssertionError msg)
      /\ Softlink.contains
           "is not supported in the current version of" msg = true
      /\ Softlink.contains "the toolkit installed in your environment" msg = true
      /\ Softlink.contains "could not be found in the library" msg = false
      /\ Softlink.contains Softlink.issue_tracker msg = true)
  /\ (exists msg,
        Softlink._fail_not_found = Softlink.Raise (Softlink.AssertionError msg)
        /\ Softlink.contains "could not be found in the library" msg = true
        /\ Softlink.contains "is not supported" msg = false
        /\ Softlink.contains Softlink.issue_tracker msg = true)
  /\ (forall status, Softlink._fail_unsupported <> Softlink.Return status)
  /\ (forall status, Softlink._fail_not_found <> Softlink.Return status)
  /\ Softlink.except_minus1 Softlink._fail_unsupported = -1
  /\ Softlink.except_minus1 Softlink._fail_not_found = -1
  /\ (forall (World : Type) (native : Z -> World -> World * Z) (w : World),
        Softlink.invoke native Softlink.fail_unsupported_ptr w
        = (w, Softlink._fail_unsupported)
        /\ Softlink.invoke native Softlink.fail_not_found_ptr w
           = (w, Softlink._fail_not_found)).
Proof.
  split; [|split; [|split; [|split; [|split; [|split]]]]].
  - eexists. split; [reflexivity|]. repeat split; vm_compute; reflexivity.
  - eexists. split; [reflexivity|]. repeat split; vm_compute; reflexivity.
  - intros status. discriminate.
  - intros status. discriminate.
  - reflexivity.
  - reflexivity.
  - intros World native w. split; reflexivity.
Qed.

(** C6. When [ctypes.CDLL] raises on the library name, construction with
    [mandatory=True] raises a RuntimeError chained to that exception, with
    no warning and no loader object; construction with [mandatory=False]
    warns once with the same message and yields a loader that has the
    exception in [error], no library in [_cdll], and answers every [get]
    with the unsupported stub. *)
Theorem init_on_open_failure
    (CDLL : string -> Softlink.outcome (gmap string Z))
    (libname prefix : string) (e : Softlink.exception) :
  CDLL libname = Softlink.Raise e ->
  let msg := "CuPy failed to load " +:+ libname +:+ ": "
             +:+ Softlink.type_name e +:+ ": " +:+ Softlink.str e in
  Softlink.init CDLL (Some libname) prefix true
  = ([], Softlink.Raise (Softlink.raise_from (Softlink.RuntimeError msg) e))
  /\ exists self,
       Softlink.init CDLL (Some libname) prefix false
       = ([msg], Softlink.Return self)
       /\ Softlink.error self = Some e
       /\ Softlink._cdll self = None
       /\ forall CUPY_HIP_VERSION table name,
            Softlink.get CUPY_HIP_VERSION table self name
            = Softlink.Return Softlink.fail_unsupported_ptr.
Proof.
  intros Hopen msg. unfold Softlink.init, Softlink.init_with. rewrite Hopen.
  split; [reflexivity|].
  eexists. split; [reflexivity|]. repeat split.
Qed.

Lemma init_on_open_failure_witness :
  fst (Softlink.init Sample.no_such_library (Some "libcusolver.so.11"%string)
         "cusolverDn" false)
  = ["CuPy failed to load libcusolver.so.11: OSError: libcusolver.so.11: cannot open shared object file"%string]
  /\ exists e,
       snd (Softlink.init Sample.no_such_library
              (Some "libcusolver.so.11"%string) "cusolverDn" true)
       = Softlink.Raise e
       /\ Softlink.type_name e = "RuntimeError"%string.
Proof.
  destruct (init_on_open_failure Sample.no_such_library
              "libcusolver.so.11" "cusolverDn"
              (Softlink.Exception "OSError"
                 "libcusolver.so.11: cannot open shared object file" None))
    as (Hmandatory & self & Hoptional & _).
  - reflexivity.
  - split.
    + rewrite Hoptional. reflexivity.
    + rewrite Hmandatory. eexists. split; reflexivity.
Defined.


(* ===================================================================== *)
(** * Part XII. More about the shared loop                               *)
(* ===================================================================== *)

Section BatchLoopShape.
Context {World Vars Args : Type}.
Variable func : World -> Args -> World * Z.
Variable call : Vars -> Args.
Variable advance : Vars -> Vars.

Abbreviation run_loop := (batch_loop func call advance).
Abbreviation nth_item := (item call advance).
Abbreviation world_upto := (world_before func call advance).
Abbreviation nth_status := (item_status func call advance).

(** A loop with at least one iteration ends on some last item, which
    decides the status; everything before it succeeded. *)
Lemma batch_loop_last : forall remaining w v st,
  remaining <> O ->
  exists last : nat,
    (last < remaining)%nat
    /\ run_loop remaining w v st
       = (world_upto w v (S last), map (nth_item v) (seq 0 (S last)),
          Init (nth_status w v last))
    /\ (forall j, (j < last)%nat -> nth_status w v j = 0)
    /\ (nth_status w v last = 0 -> S last = remaining).
Proof.
  induction remaining as [|r IH]; intros w v st Hne; [congruence|].
  cbn [batch_loop].
  destruct (func w (call v)) as [w1 st1] eqn:E.
  assert (E0 : nth_status w v 0 = st1)
    by (rewrite item_status_0, E; reflexivity).
  assert (Ew : w1 = fst (func w (call v))) by (rewrite E; reflexivity).
  destruct (Z.eqb_spec st1 0) as [Hz|Hnz].
  - destruct r as [|r'].
    + exists O. cbn [batch_loop]. rewrite E0.
      repeat split; try lia.
      change (world_upto w v 1) with (fst (func w (call v))).
      now rewrite <- Ew.
    + destruct (IH w1 (advance v) (Init st1) ltac:(congruence))
        as (last & Hlt & Hrun & Hbefore & Hfinal).
      exists (S last). rewrite Hrun. split; [lia|].
      rewrite Ew in *. rewrite item_status_shift in *.
      rewrite world_before_shift, item_seq_shift.
      split; [reflexivity|]. split.
      * intros [|j] Hj; [congruence|].
        rewrite <- item_status_shift. apply Hbefore. lia.
      * intros H0. f_equal. now apply Hfinal.
  - exists O. rewrite E0. repeat split; try lia.
    change (world_upto w v 1) with (fst (func w (call v))).
    now rewrite <- Ew.
Qed.

(** More iterations only append calls; after a failure they add nothing. *)
Lemma batch_loop_more : forall remaining remaining' w v st st',
  (remaining <= remaining')%nat ->
  (exists more,
      snd (fst (run_loop remaining' w v st'))
      = snd (fst (run_loop remaining w v st)) ++ more)
  /\ (forall s, s <> 0 -> (remaining <> O \/ st = Init 0) ->
      snd (run_loop remaining w v st) = Init s ->
      run_loop remaining' w v st' = run_loop remaining w v st).
Proof.
  induction remaining as [|r IH]; intros remaining' w v st st' Hle.
  - split.
    + eexists. reflexivity.
    + intros s Hs [Hne|Hst] Hret; [congruence|].
      subst st. cbn in Hret. congruence.
  - destruct remaining' as [|r']; [lia|].
    cbn [batch_loop].
    destruct (func w (call v)) as [w1 st1].
    destruct (Z.eqb_spec st1 0) as [Hz|Hnz].
    + destruct (IH r' w1 (advance v) (Init st1) (Init st1) ltac:(lia))
        as [[more Hmore] Hsame].
      destruct (run_loop r' w1 (advance v) (Init st1)) as [[w2' c2'] ret2'].
      destruct (run_loop r w1 (advance v) (Init st1)) as [[w2 c2] ret2].
      cbn [fst snd] in *. split.
      * exists more. now rewrite Hmore.
      * intros s Hs _ Hret.
        specialize (Hsame s Hs (or_intror (f_equal Init Hz)) Hret).
        now inversion Hsame.
    + split; [exists []; reflexivity | reflexivity].
Qed.

End BatchLoopShape.

Section BatchLoopVocabulary.
Context {World Vars Args : Type}.
Variable func : World -> Args -> World * Z.
Variable call : Vars -> Args.
Variable advance : Vars -> Vars.

Lemma batch_loop_completes_when_all_succeed batch_size w v st :
  completes_when_all_succeed func call advance w v
    (batch_loop func call advance (trip_count batch_size) w v st) batch_size.
Proof.
  intros Hge Hok. unfold trip_count. rewrite batch_loop_completes.
  - destruct (Z.to_nat batch_size) eqn:E; [lia | reflexivity].
  - intros j Hj. apply Hok. lia.
Qed.

Lemma batch_loop_returns_last_status batch_size w v st :
  returns_last_status func call advance w v
    (batch_loop func call advance (trip_count batch_size) w v st) batch_size.
Proof.
  intros Hge. unfold trip_count.
  destruct (batch_loop_last func call advance (Z.to_nat batch_size) w v st)
    as (last & Hlt & Hrun & Hbefore & Hfinal); [lia|].
  exists last. rewrite Hrun. unfold run_calls, run_world, run_status.
  cbn [fst snd]. repeat split; try assumption; lia.
Qed.

Lemma batch_loop_extends batch_size batch_size' w v :
  batch_size <= batch_size' ->
  extends (batch_loop func call advance (trip_count batch_size) w v Uninit)
          (batch_loop func call advance (trip_count batch_size') w v Uninit).
Proof.
  intros Hle. unfold extends, run_calls, run_status, trip_count.
  destruct (batch_loop_more func call advance
              (Z.to_nat batch_size) (Z.to_nat batch_size') w v Uninit Uninit)
    as [Hmore Hsame]; [lia|].
  split; [exact Hmore|].
  intros s Hs Hret. apply (Hsame s Hs); [|exact Hret].
  left. intros Hz. rewrite Hz in Hret. cbn in Hret. discriminate Hret.
Qed.

End BatchLoopVocabulary.

(* ===================================================================== *)
(** * Part XIII. More about the dispatchers                              *)
(* ===================================================================== *)

Section FiveLoops.
Context {World : Type} (cu : Cuda.cusolver World) (hip : Hip.hipsolver World).
Variables (T : elem) (handle : Z) (jobu jobvt : ascii).
Variables (m n k a_ptr lda s_ptr u_ptr vt_ptr tau_ptr : Z).
Variables (w_ptr buffersize info_ptr origin_n : Z) (w : World).

Abbreviation cu_sv_call :=
  (Cuda.gesvd_call T handle jobu jobvt m n w_ptr buffersize).
Abbreviation cu_sv_adv := (Cuda.gesvd_advance jobu jobvt m n).
Abbreviation cu_sv_init := (Cuda.gesvd_init T a_ptr s_ptr u_ptr vt_ptr info_ptr).
Abbreviation cu_sv_loop :=
  (Cuda.gesvd_loop T handle jobu jobvt m n a_ptr s_ptr u_ptr vt_ptr
     w_ptr buffersize info_ptr).

Abbreviation cu_qr_call := (Cuda.geqrf_call T handle m n lda w_ptr buffersize).
Abbreviation cu_qr_adv := (Cuda.geqrf_advance m n).
Abbreviation cu_qr_init := (Cuda.geqrf_init T a_ptr tau_ptr info_ptr).
Abbreviation cu_qr_loop :=
  (Cuda.geqrf_loop T handle m n a_ptr lda tau_ptr w_ptr buffersize info_ptr).

Abbreviation cu_og_call := (Cuda.orgqr_call T handle m n k lda w_ptr buffersize).
Abbreviation cu_og_adv := (Cuda.orgqr_advance m k origin_n).
Abbreviation cu_og_init := (Cuda.orgqr_init T a_ptr tau_ptr info_ptr).
Abbreviation cu_og_loop batch_size :=
  (Cuda.orgqr_loop T handle m n k a_ptr lda tau_ptr w_ptr buffersize info_ptr
     batch_size origin_n).

Abbreviation hip_qr_call := (Hip.geqrf_call T handle m n lda w_ptr buffersize).
Abbreviation hip_qr_adv := (Hip.geqrf_advance m n).
Abbreviation hip_qr_init := (Hip.geqrf_init T a_ptr tau_ptr info_ptr).
Abbreviation hip_qr_loop :=
  (Hip.geqrf_loop T handle m n a_ptr lda tau_ptr w_ptr buffersize info_ptr).

Abbreviation hip_og_call := (Hip.orgqr_call T handle m n k lda w_ptr buffersize).
Abbreviation hip_og_adv := (Hip.orgqr_advance m k origin_n).
Abbreviation hip_og_init := (Hip.orgqr_init T a_ptr tau_ptr info_ptr).
Abbreviation hip_og_loop batch_size :=
  (Hip.orgqr_loop T handle m n k a_ptr lda tau_ptr w_ptr buffersize info_ptr
     batch_size origin_n).

(** X1. A batch in which every item is given status 0 is dispatched in
    full by each of the five loops: exactly [batch_size] calls, items
    [0 .. batch_size-1] in order, and 0 returned. *)
Theorem dispatchers_complete_successful_batch (batch_size : Z) :
  completes_when_all_succeed (Cuda.gesvd_func T) cu_sv_call cu_sv_adv w
    cu_sv_init (cu_sv_loop batch_size w) batch_size
  /\ completes_when_all_succeed (Cuda.geqrf_func T) cu_qr_call cu_qr_adv w
       cu_qr_init (cu_qr_loop batch_size w) batch_size
  /\ completes_when_all_succeed (Cuda.orgqr_func T) cu_og_call cu_og_adv w
       cu_og_init (cu_og_loop batch_size w) batch_size
  /\ completes_when_all_succeed (Hip.geqrf_func (Hip.data_type T))
       hip_qr_call hip_qr_adv w hip_qr_init (hip_qr_loop batch_size w)
       batch_size
  /\ completes_when_all_succeed (Hip.orgqr_func T) hip_og_call hip_og_adv w
       hip_og_init (hip_og_loop batch_size w) batch_size.
Proof.
  split; [|split; [|split; [|split]]];
    apply batch_loop_completes_when_all_succeed.
Qed.

(** X2. Whatever the vendor answers, a run of any of the five loops with
    [batch_size >= 1] makes between 1 and [batch_size] calls, on items
    [0 .. last]; it returns the status of the last call made; every call
    before the last was given 0; and it returns 0 only after calling the
    whole batch. *)
Theorem dispatchers_return_last_status (batch_size : Z) :
  returns_last_status (Cuda.gesvd_func T) cu_sv_call cu_sv_adv w
    cu_sv_init (cu_sv_loop batch_size w) batch_size
  /\ returns_last_status (Cuda.geqrf_func T) cu_qr_call cu_qr_adv w
       cu_qr_init (cu_qr_loop batch_size w) batch_size
  /\ returns_last_status (Cuda.orgqr_func T) cu_og_call cu_og_adv w
       cu_og_init (cu_og_loop batch_size w) batch_size
  /\ returns_last_status (Hip.geqrf_func (Hip.data_type T))
       hip_qr_call hip_qr_adv w hip_qr_init (hip_qr_loop batch_size w)
       batch_size
  /\ returns_last_status (Hip.orgqr_func T) hip_og_call hip_og_adv w
       hip_og_init (hip_og_loop batch_size w) batch_size.
Proof.
  split; [|split; [|split; [|split]]];
    apply batch_loop_returns_last_status.
Qed.

(** X3. Raising [batch_size] never changes the calls already made: the
    calls of the shorter batch are an initial part of the calls of the
    longer one, and when the shorter batch returned a nonzero status the
    longer one does exactly the same. *)
Theorem dispatchers_extend_with_batch_size (batch_size batch_size' : Z) :
  batch_size <= batch_size' ->
  extends (cu_sv_loop batch_size w) (cu_sv_loop batch_size' w)
  /\ extends (cu_qr_loop batch_size w) (cu_qr_loop batch_size' w)
  /\ extends (cu_og_loop batch_size w) (cu_og_loop batch_size' w)
  /\ extends (hip_qr_loop batch_size w) (hip_qr_loop batch_size' w)
  /\ extends (hip_og_loop batch_size w) (hip_og_loop batch_size' w).
Proof.
  intros Hle.
  split; [|split; [|split; [|split]]]; now apply batch_loop_extends.
Qed.

End FiveLoops.

Lemma dispatchers_complete_successful_batch_witness :
  Hip.geqrf_loop (lib := Sample.hipsolver_scripted 9 1)
    double 1 4 6 1000 4 2000 3000 64 4000 3 0%nat
  = (3%nat,
     map (item (Hip.geqrf_call double 1 4 6 4 3000 64) (Hip.geqrf_advance 4 6)
            (Hip.geqrf_init double 1000 2000 4000)) (seq 0 3),
     Init 0).
Proof.
  destruct (dispatchers_complete_successful_batch
              (Sample.cusolver_scripted 9 1) (Sample.hipsolver_scripted 9 1)
              double 1 "N" "N" 4 6 6 1000 4 2000 3000 4000 2000 3000 64 4000
              10 0%nat 3) as (_ & _ & _ & H & _).
  apply H.
  - lia.
  - intros j Hj. destruct j as [|[|[|j]]]; [reflexivity..|lia].
Defined.

Lemma dispatchers_return_last_status_witness :
  exists last : nat,
    Z.of_nat last < 4
    /\ run_status (Cuda.orgqr_loop (lib := Sample.cusolver_scripted 1 5)
                     float 1 4 6 6 1000 4 2000 3000 64 4000 4 10 0%nat)
       = Init (item_status (Cuda.orgqr_func (lib := Sample.cusolver_scripted 1 5) float)
                 (Cuda.orgqr_call float 1 4 6 6 4 3000 64)
                 (Cuda.orgqr_advance 4 6 10) 0%nat
                 (Cuda.orgqr_init float 1000 2000 4000) last).
Proof.
  destruct (dispatchers_return_last_status
              (Sample.cusolver_scripted 1 5) (Sample.hipsolver_scripted 1 5)
              float 1 "N" "N" 4 6 6 1000 4 2000 3000 4000 2000 3000 64 4000
              10 0%nat 4) as (_ & _ & H & _).
  destruct H as (last & Hlt & _ & _ & Hret & _); [lia|].
  exists last. split; assumption.
Defined.

Lemma dispatchers_extend_with_batch_size_witness :
  exists more,
    run_calls (Hip.orgqr_loop (lib := Sample.hipsolver_scripted 9 1)
                 float 1 4 6 6 1000 4 2000 3000 64 4000 4 10 0%nat)
    = run_calls (Hip.orgqr_loop (lib := Sample.hipsolver_scripted 9 1)
                   float 1 4 6 6 1000 4 2000 3000 64 4000 2 10 0%nat)
      ++ more.
Proof.
  destruct (dispatchers_extend_with_batch_size
              (Sample.cusolver_scripted 9 1) (Sample.hipsolver_scripted 9 1)
              float 1 "N" "N" 4 6 6 1000 4 2000 3000 4000 2000 3000 64 4000
              10 0%nat 2 4) as (_ & _ & _ & _ & [H _]).
  - lia.
  - exact H.
Defined.

(** ** What every call of the SVD dispatcher carries *)

Section GesvdCalls.
Context {World : Type} (cu : Cuda.cusolver World).
Variables (T : elem) (handle : Z) (jobu jobvt : ascii).
Variables (m n a_ptr s_ptr u_ptr vt_ptr w_ptr buffersize info_ptr : Z).
Variables (batch_size : Z) (w : World).

Lemma gesvd_loop_call_is_item (i : nat) c :
  run_calls (Cuda.gesvd_loop T handle jobu jobvt m n a_ptr s_ptr u_ptr vt_ptr
               w_ptr buffersize info_ptr batch_size w) !! i = Some c ->
  c = item (Cuda.gesvd_call T handle jobu jobvt m n w_ptr buffersize)
        (Cuda.gesvd_advance jobu jobvt m n)
        (Cuda.gesvd_init T a_ptr s_ptr u_ptr vt_ptr info_ptr) i.
Proof.
  intros Hc. unfold Cuda.gesvd_loop, run_calls in Hc.
  destruct (batch_loop _ _ _ _ _ _ _) as [[w1 calls] ret] eqn:Hrun.
  cbn [fst snd] in Hc.
  exact (batch_loop_call_at _ _ _ _ _ _ _ _ _ _ _ _ Hrun Hc).
Qed.

(** X4. Every call [gesvd_loop] makes, in a batch that succeeds or not,
    passes the caller's handle, job flags and dimensions, the leading
    dimensions [lda = m], [ldu = m] and [ldvt = n], the one workspace
    [w_ptr] with size [buffersize], and [NULL] for [rwork]; call [i]
    receives the singular values, typed as the real type of [T], at
    [s_ptr + i*min(m,n)] and the info slot at [info_ptr + i]. *)
Theorem gesvd_loop_fixed_arguments (i : nat) c :
  run_calls (Cuda.gesvd_loop T handle jobu jobvt m n a_ptr s_ptr u_ptr vt_ptr
               w_ptr buffersize info_ptr batch_size w) !! i = Some c ->
  sv_handle c = handle /\ sv_jobu c = jobu /\ sv_jobvt c = jobvt
  /\ sv_m c = m /\ sv_n c = n
  /\ sv_lda c = m /\ sv_ldu c = m /\ sv_ldvt c = n
  /\ sv_work c = Ptr (c_elem T) w_ptr 0 /\ sv_lwork c = buffersize
  /\ sv_rwork c = None
  /\ sv_S c = Ptr (c_elem (Cuda.real_type T)) s_ptr (Z.of_nat i * Z.min m n)
  /\ sv_info c = Ptr c_int info_ptr (Z.of_nat i)
  /\ Z.of_nat i < batch_size.
Proof.
  intros Hc. pose proof (gesvd_loop_call_is_item i c Hc) as ->.
  rewrite gesvd_item_eq. cbv zeta. rewrite ternary_min.
  repeat split.
  unfold Cuda.gesvd_loop, run_calls in Hc.
  destruct (batch_loop _ _ _ _ _ _ _) as [[w1 calls] ret] eqn:Hrun.
  cbn [fst snd] in Hc.
  destruct (batch_loop_calls _ _ _ _ _ _ _ _ _ _ Hrun) as [_ Hlen].
  apply lookup_lt_Some in Hc. unfold trip_count in Hlen. lia.
Qed.

(** X5. With a job flag other than ['A'] and ['S'] the factor pointer
    never moves: every call receives [U] at [u_ptr] itself when [jobu] is
    neither, and [VT] at [vt_ptr] itself when [jobvt] is neither. *)
Theorem gesvd_loop_unrequested_factor_not_advanced (i : nat) c :
  run_calls (Cuda.gesvd_loop T handle jobu jobvt m n a_ptr s_ptr u_ptr vt_ptr
               w_ptr buffersize info_ptr batch_size w) !! i = Some c ->
  (jobu <> "A"%char -> jobu <> "S"%char -> sv_U c = Ptr (c_elem T) u_ptr 0)
  /\ (jobvt <> "A"%char -> jobvt <> "S"%char ->
      sv_VT c = Ptr (c_elem T) vt_ptr 0).
Proof.
  intros Hc. pose proof (gesvd_loop_call_is_item i c Hc) as ->.
  rewrite gesvd_item_eq. cbv zeta. cbn [sv_U sv_VT].
  split; intros HA HS.
  - apply Ascii.eqb_neq in HA, HS. rewrite HA, HS. f_equal. lia.
  - apply Ascii.eqb_neq in HA, HS. rewrite HA, HS. f_equal. lia.
Qed.

End GesvdCalls.

Lemma gesvd_loop_fixed_arguments_witness :
  exists c,
    run_calls (Cuda.gesvd_loop (lib := Sample.cusolver_scripted 1 5)
                 complex128 77 "S" "N" 3 2 1000 2000 3000 4000 5000 64 6000 4
                 0%nat) !! 1%nat = Some c
    /\ sv_lda c = 3 /\ sv_ldu c = 3 /\ sv_ldvt c = 2
    /\ sv_work c = Ptr (c_elem complex128) 5000 0 /\ sv_rwork c = None
    /\ sv_S c = Ptr (c_elem double) 2000 2
    /\ sv_info c = Ptr c_int 6000 1.
Proof.
  eexists. split; [reflexivity|].
  destruct (gesvd_loop_fixed_arguments (Sample.cusolver_scripted 1 5)
              complex128 77 "S" "N" 3 2 1000 2000 3000 4000 5000 64 6000 4
              0%nat 1%nat _ eq_refl)
    as (_ & _ & _ & _ & _ & Hlda & Hldu & Hldvt & Hw & _ & Hr & HS & HI & _).
  repeat split; assumption.
Defined.

Lemma gesvd_loop_unrequested_factor_not_advanced_witness :
  exists c,
    run_calls (Cuda.gesvd_loop (lib := Sample.cusolver_scripted 9 1)
                 float 77 "O" "N" 3 2 1000 2000 3000 4000 5000 64 6000 3
                 0%nat) !! 2%nat = Some c
    /\ sv_U c = Ptr (c_elem float) 3000 0
    /\ sv_VT c = Ptr (c_elem float) 4000 0.
Proof.
  eexists. split; [reflexivity|].
  destruct (gesvd_loop_unrequested_factor_not_advanced
              (Sample.cusolver_scripted 9 1)
              float 77 "O" "N" 3 2 1000 2000 3000 4000 5000 64 6000 3
              0%nat 2%nat _ eq_refl) as [HU HVT].
  split; [apply HU | apply HVT]; discriminate.
Defined.

(** ** What every call of the QR dispatchers carries *)

Section QrCalls.
Context {World : Type} (cu : Cuda.cusolver World) (hip : Hip.hipsolver World).
Variables (T : elem) (handle m n k a_ptr lda tau_ptr : Z).
Variables (w_ptr buffersize info_ptr batch_size origin_n : Z) (w : World).

Lemma cuda_geqrf_call_is_item (i : nat) c :
  run_calls (Cuda.geqrf_loop T handle m n a_ptr lda tau_ptr w_ptr buffersize
               info_ptr batch_size w) !! i = Some c ->
  c = item (Cuda.geqrf_call T handle m n lda w_ptr buffersize)
        (Cuda.geqrf_advance m n) (Cuda.geqrf_init T a_ptr tau_ptr info_ptr) i
  /\ Z.of_nat i < batch_size.
Proof.
  intros Hc. unfold Cuda.geqrf_loop, run_calls in Hc.
  destruct (batch_loop _ _ _ _ _ _ _) as [[w1 calls] ret] eqn:Hrun.
  cbn [fst snd] in Hc. split.
  - exact (batch_loop_call_at _ _ _ _ _ _ _ _ _ _ _ _ Hrun Hc).
  - destruct (batch_loop_calls _ _ _ _ _ _ _ _ _ _ Hrun) as [_ Hlen].
    apply lookup_lt_Some in Hc. unfold trip_count in Hlen. lia.
Qed.

Lemma hip_geqrf_call_is_item (i : nat) c :
  run_calls (Hip.geqrf_loop T handle m n a_ptr lda tau_ptr w_ptr buffersize
               info_ptr batch_size w) !! i = Some c ->
  c = item (Hip.geqrf_call T handle m n lda w_ptr buffersize)
        (Hip.geqrf_advance m n) (Hip.geqrf_init T a_ptr tau_ptr info_ptr) i
  /\ Z.of_nat i < batch_size.
Proof.
  intros Hc. unfold Hip.geqrf_loop, run_calls in Hc.
  destruct (batch_loop _ _ _ _ _ _ _) as [[w1 calls] ret] eqn:Hrun.
  cbn [fst snd] in Hc. split.
  - exact (batch_loop_call_at _ _ _ _ _ _ _ _ _ _ _ _ Hrun Hc).
  - destruct (batch_loop_calls _ _ _ _ _ _ _ _ _ _ Hrun) as [_ Hlen].
    apply lookup_lt_Some in Hc. unfold trip_count in Hlen. lia.
Qed.

Lemma cuda_orgqr_call_is_item (i : nat) c :
  run_calls (Cuda.orgqr_loop T handle m n k a_ptr lda tau_ptr w_ptr buffersize
               info_ptr batch_size origin_n w) !! i = Some c ->
  c = item (Cuda.orgqr_call T handle m n k lda w_ptr buffersize)
        (Cuda.orgqr_advance m k origin_n)
        (Cuda.orgqr_init T a_ptr tau_ptr info_ptr) i
  /\ Z.of_nat i < batch_size.
Proof.
  intros Hc. unfold Cuda.orgqr_loop, run_calls in Hc.
  destruct (batch_loop _ _ _ _ _ _ _) as [[w1 calls] ret] eqn:Hrun.
  cbn [fst snd] in Hc. split.
  - exact (batch_loop_call_at _ _ _ _ _ _ _ _ _ _ _ _ Hrun Hc).
  - destruct (batch_loop_calls _ _ _ _ _ _ _ _ _ _ Hrun) as [_ Hlen].
    apply lookup_lt_Some in Hc. unfold trip_count in Hlen. lia.
Qed.

Lemma hip_orgqr_call_is_item (i : nat) c :
  run_calls (Hip.orgqr_loop T handle m n k a_ptr lda tau_ptr w_ptr buffersize
               info_ptr batch_size origin_n w) !! i = Some c ->
  c = item (Hip.orgqr_call T handle m n k lda w_ptr buffersize)
        (Hip.orgqr_advance m k origin_n)
        (Hip.orgqr_init T a_ptr tau_ptr info_ptr) i
  /\ Z.of_nat i < batch_size.
Proof.
  intros Hc. unfold Hip.orgqr_loop, run_calls in Hc.
  destruct (batch_loop _ _ _ _ _ _ _) as [[w1 calls] ret] eqn:Hrun.
  cbn [fst snd] in Hc. split.
  - exact (batch_loop_call_at _ _ _ _ _ _ _ _ _ _ _ _ Hrun Hc).
  - destruct (batch_loop_calls _ _ _ _ _ _ _ _ _ _ Hrun) as [_ Hlen].
    apply lookup_lt_Some in Hc. unfold trip_count in Hlen. lia.
Qed.

(** X6. Every call [geqrf_loop] makes, on either backend and in a batch
    that succeeds or not, passes the caller's handle and dimensions and
    the one workspace [w_ptr] with size [buffersize]; call [i] receives
    [tau] at [tau_ptr + i*min(m,n)] and the info slot at [info_ptr + i],
    and [i] is below [batch_size]. *)
Theorem geqrf_loop_call_arguments (i : nat) c :
  (run_calls (Cuda.geqrf_loop T handle m n a_ptr lda tau_ptr w_ptr buffersize
                info_ptr batch_size w) !! i = Some c
   \/ run_calls (Hip.geqrf_loop T handle m n a_ptr lda tau_ptr w_ptr
                   buffersize info_ptr batch_size w) !! i = Some c) ->
  qr_handle c = handle /\ qr_m c = m /\ qr_n c = n
  /\ qr_tau c = Ptr (c_elem T) tau_ptr (Z.of_nat i * Z.min m n)
  /\ qr_work c = Ptr (c_elem T) w_ptr 0 /\ qr_lwork c = buffersize
  /\ qr_info c = Ptr c_int info_ptr (Z.of_nat i)
  /\ Z.of_nat i < batch_size.
Proof.
  intros [Hc|Hc].
  - destruct (cuda_geqrf_call_is_item i c Hc) as [-> Hlt].
    rewrite cuda_geqrf_item_eq, ternary_min. repeat split. exact Hlt.
  - destruct (hip_geqrf_call_is_item i c Hc) as [-> Hlt].
    rewrite hip_geqrf_item_eq, ternary_min. repeat split. exact Hlt.
Qed.

(** X7. Every call [orgqr_loop] makes, on either backend, passes the
    caller's handle, [m], [n], [k] and [lda] and the one workspace; call
    [i] receives [tau] at [tau_ptr + i*k] and the info slot at
    [info_ptr + i], and [i] is below [batch_size].  The width handed to
    the vendor is [n]; [origin_n] is in no argument but the position of
    the matrix. *)
Theorem orgqr_loop_call_arguments (i : nat) c :
  (run_calls (Cuda.orgqr_loop T handle m n k a_ptr lda tau_ptr w_ptr
                buffersize info_ptr batch_size origin_n w) !! i = Some c
   \/ run_calls (Hip.orgqr_loop T handle m n k a_ptr lda tau_ptr w_ptr
                   buffersize info_ptr batch_size origin_n w) !! i = Some c) ->
  og_handle c = handle /\ og_m c = m /\ og_n c = n /\ og_k c = k
  /\ og_lda c = lda
  /\ og_tau c = Ptr (c_elem T) tau_ptr (Z.of_nat i * k)
  /\ og_work c = Ptr (c_elem T) w_ptr 0 /\ og_lwork c = buffersize
  /\ og_info c = Ptr c_int info_ptr (Z.of_nat i)
  /\ Z.of_nat i < batch_size.
Proof.
  intros [Hc|Hc].
  - destruct (cuda_orgqr_call_is_item i c Hc) as [-> Hlt].
    rewrite cuda_orgqr_item_eq. repeat split. exact Hlt.
  - destruct (hip_orgqr_call_is_item i c Hc) as [-> Hlt].
    rewrite hip_orgqr_item_eq. repeat split. exact Hlt.
Qed.

(** X8. [geqrf_loop] as compiled for HIP and as compiled for CUDA are the
    same dispatcher: the [data_type] the HIP variant computes is [T]
    itself for the four element types, so with vendor entry points that
    behave alike the two make the same calls, leave the same world and
    return the same status. *)
Theorem geqrf_loop_variants_agree :
  (forall w' a, Cuda.geqrf_func T w' a = Hip.geqrf_func T w' a) ->
  Hip.data_type T = T
  /\ Cuda.geqrf_loop T handle m n a_ptr lda tau_ptr w_ptr buffersize
       info_ptr batch_size w
     = Hip.geqrf_loop T handle m n a_ptr lda tau_ptr w_ptr buffersize
         info_ptr batch_size w.
Proof.
  intros Hsame. split; [apply data_type_id|].
  unfold Cuda.geqrf_loop, Hip.geqrf_loop, Hip.geqrf_init.
  rewrite data_type_id.
  apply batch_loop_ext; [exact Hsame | | reflexivity].
  intros v. unfold Cuda.geqrf_call, Hip.geqrf_call.
  now rewrite data_type_id.
Qed.

End QrCalls.

Lemma geqrf_loop_call_arguments_witness :
  exists c,
    run_calls (Hip.geqrf_loop (lib := Sample.hipsolver_scripted 1 5)
                 complex64 1 4 6 1000 4 2000 3000 64 4000 3 0%nat)
      !! 1%nat = Some c
    /\ qr_tau c = Ptr (c_elem complex64) 2000 4
    /\ qr_work c = Ptr (c_elem complex64) 3000 0
    /\ qr_info c = Ptr c_int 4000 1.
Proof.
  eexists. split; [reflexivity|].
  destruct (geqrf_loop_call_arguments
              (Sample.cusolver_scripted 1 5) (Sample.hipsolver_scripted 1 5)
              complex64 1 4 6 1000 4 2000 3000 64 4000 3 0%nat 1%nat _
              (or_intror eq_refl))
    as (_ & _ & _ & Htau & Hw & _ & Hinfo & _).
  repeat split; assumption.
Defined.

Lemma orgqr_loop_call_arguments_witness :
  exists c,
    run_calls (Cuda.orgqr_loop (lib := Sample.cusolver_scripted 9 1)
                 double 1 4 6 5 1000 4 2000 3000 64 4000 3 10 0%nat)
      !! 2%nat = Some c
    /\ og_n c = 6
    /\ og_tau c = Ptr (c_elem double) 2000 10
    /\ og_info c = Ptr c_int 4000 2.
Proof.
  eexists. split; [reflexivity|].
  destruct (orgqr_loop_call_arguments
              (Sample.cusolver_scripted 9 1) (Sample.hipsolver_scripted 9 1)
              double 1 4 6 5 1000 4 2000 3000 64 4000 3 10 0%nat 2%nat _
              (or_introl eq_refl))
    as (_ & _ & Hn & _ & _ & Htau & _ & _ & Hinfo & _).
  repeat split; assumption.
Defined.

Lemma geqrf_loop_variants_agree_witness :
  Cuda.geqrf_loop (lib := Sample.cusolver_scripted 1 5)
    complex128 1 4 6 1000 4 2000 3000 64 4000 3 0%nat
  = Hip.geqrf_loop (lib := Sample.hipsolver_scripted 1 5)
      complex128 1 4 6 1000 4 2000 3000 64 4000 3 0%nat.
Proof.
  destruct (geqrf_loop_variants_agree
              (Sample.cusolver_scripted 1 5) (Sample.hipsolver_scripted 1 5)
              complex128 1 4 6 1000 4 2000 3000 64 4000 3 0%nat) as [_ H].
  - intros w' a. reflexivity.
  - exact H.
Defined.


(* ===================================================================== *)
(** * Part XIV. More about the soft-link loader                          *)
(* ===================================================================== *)

(** X9. Constructed without a library name, the loader never touches
    [ctypes.CDLL], never warns and never raises, whether mandatory or
    not: it records the RuntimeError "The library is unavailable in the
    current platform.", has no library, and answers every [get] with the
    unsupported stub, whose call raises and leaves the world alone. *)
Theorem init_without_library
    (CDLL : string -> Softlink.outcome (gmap string Z))
    (prefix : string) (mandatory : bool) :
  exists self,
    Softlink.init CDLL None prefix mandatory = ([], Softlink.Return self)
    /\ Softlink.error self
       = Some (Softlink.RuntimeError
                 "The library is unavailable in the current platform.")
    /\ Softlink._cdll self = None
    /\ Softlink.prefix self = prefix
    /\ forall CUPY_HIP_VERSION table name,
         Softlink.get CUPY_HIP_VERSION table self name
         = Softlink.Return Softlink.fail_unsupported_ptr
         /\ forall (World : Type) (native : Z -> World -> World * Z) (w : World),
              exists msg,
                Softlink.invoke native Softlink.fail_unsupported_ptr w
                = (w, Softlink.Raise (Softlink.AssertionError msg)).
Proof.
  eexists. split; [reflexivity|]. repeat split.
  eexists. reflexivity.
Qed.

Lemma getattr_cdll_plain (lib : gmap string Z) (q : string) :
  Softlink.plain_symbol_name q = true ->
  Softlink.getattr_cdll lib q
  = match lib !! q with
    | None => Softlink.attr_None
    | Some addr => Softlink.attr_function addr
    end.
Proof.
  unfold Softlink.plain_symbol_name, Softlink.getattr_cdll. intros Hplain.
  apply andb_true_iff in Hplain as [Hplain Hnul].
  apply andb_true_iff in Hplain as [Hattr Hdunder].
  apply negb_true_iff in Hattr, Hdunder. apply String.eqb_eq in Hnul.
  now rewrite Hattr, Hdunder, Hnul.
Qed.

(** X10. When [ctypes.CDLL] opens the library, construction returns,
    mandatory or not and whatever [warnings.warn] would do, a loader with
    no error, no warning and that library.  In a CUDA build
    ([CUPY_HIP_VERSION = 0]) [get] then answers, for a qualified name
    [prefix + name] that is no attribute of the [CDLL] object, not of the
    form [__x__] and free of NUL, with the address exported under that
    name, and with the not-found stub when the library exports no such
    name. *)
Theorem init_then_get_on_open_library
    (warn : string -> option Softlink.exception)
    (CDLL : string -> Softlink.outcome (gmap string Z))
    (libname prefix : string) (mandatory : bool) (lib : gmap string Z) :
  CDLL libname = Softlink.Return lib ->
  exists self,
    Softlink.init_with warn CDLL (Some libname) prefix mandatory
    = ([], Softlink.Return self)
    /\ Softlink.error self = None
    /\ Softlink._cdll self = Some lib
    /\ Softlink.prefix self = prefix
    /\ forall table name,
         Softlink.plain_symbol_name (prefix +:+ name) = true ->
         (forall addr, lib !! (prefix +:+ name) = Some addr ->
            Softlink.get 0 table self name
            = Softlink.Return (Softlink.symbol_ptr addr))
         /\ (lib !! (prefix +:+ name) = None ->
             Softlink.get 0 table self name
             = Softlink.Return Softlink.fail_not_found_ptr).
Proof.
  intros Hopen. unfold Softlink.init_with. rewrite Hopen.
  eexists. split; [reflexivity|]. repeat split.
  - intros addr Hsym. unfold Softlink.get, Softlink.funcname,
      Softlink.getattr_or_stub. cbn [Softlink._cdll Softlink.prefix Z.eqb negb].
    now rewrite (getattr_cdll_plain _ _ H), Hsym.
  - intros Hsym. unfold Softlink.get, Softlink.funcname,
      Softlink.getattr_or_stub. cbn [Softlink._cdll Softlink.prefix Z.eqb negb].
    now rewrite (getattr_cdll_plain _ _ H), Hsym.
Qed.

Lemma init_then_get_on_open_library_witness :
  exists self,
    Softlink.init Scenario.opens_libfoo (Some "libfoo.so"%string) "foo_" false
    = ([], Softlink.Return self)
    /\ Softlink.get 0 Sample.mappings self "bar"
       = Softlink.Return (Softlink.symbol_ptr 8192)
    /\ Softlink.get 0 Sample.mappings self "baz"
       = Softlink.Return Softlink.fail_not_found_ptr.
Proof.
  destruct (init_then_get_on_open_library Softlink.warn_returns
              Scenario.opens_libfoo "libfoo.so" "foo_" false Scenario.libfoo)
    as (self & Hinit & _ & _ & _ & Hget).
  - reflexivity.
  - exists self. split; [exact Hinit|]. split.
    + apply (Hget Sample.mappings "bar"); vm_compute; reflexivity.
    + apply (Hget Sample.mappings "baz"); vm_compute; reflexivity.
Defined.

(** X11. Every loader that construction returns keeps the prefix it was
    given and has either an error or a library, never both and never
    neither; construction warns at most once, and only when it was not
    mandatory and the library failed to open. *)
Theorem init_returned_loader_invariant
    (CDLL : string -> Softlink.outcome (gmap string Z))
    (libname : option string) (prefix : string) (mandatory : bool)
    (warnings : list string) (self : Softlink.SoftLink) :
  Softlink.init CDLL libname prefix mandatory = (warnings, Softlink.Return self) ->
  Softlink.prefix self = prefix
  /\ (Softlink.error self = None <-> Softlink._cdll self <> None)
  /\ (warnings = []
      \/ exists name e,
           libname = Some name /\ CDLL name = Softlink.Raise e
           /\ mandatory = false /\ Softlink.error self = Some e
           /\ warnings = ["CuPy failed to load " +:+ name +:+ ": "
                          +:+ Softlink.type_name e +:+ ": " +:+ Softlink.str e]).
Proof.
  unfold Softlink.init, Softlink.init_with. intros Hinit.
  destruct libname as [name|].
  - destruct (CDLL name) as [lib|e] eqn:Hopen.
    + inversion Hinit; subst. cbn. repeat split; try congruence. now left.
    + destruct mandatory; [discriminate Hinit|].
      cbn [Softlink.warn_returns] in Hinit.
      inversion Hinit; subst. cbn. repeat split; try congruence.
      right. exists name, e. repeat split. exact Hopen.
  - inversion Hinit; subst. cbn. repeat split; try congruence. now left.
Qed.

Lemma init_returned_loader_invariant_witness :
  exists self,
    Softlink.init Sample.no_such_library (Some "libcusolver.so.11"%string)
      "cusolverDn" false
    = (["CuPy failed to load libcusolver.so.11: OSError: libcusolver.so.11: cannot open shared object file"%string],
       Softlink.Return self)
    /\ Softlink.prefix self = "cusolverDn"%string
    /\ (Softlink.error self = None <-> Softlink._cdll self <> None).
Proof.
  eexists. split; [reflexivity|].
  destruct (init_returned_loader_invariant Sample.no_such_library
              (Some "libcusolver.so.11"%string) "cusolverDn" false _ _ eq_refl)
    as (Hprefix & Hstate & _).
  split; assumption.
Defined.




(** X14. In a CUDA build ([CUPY_HIP_VERSION = 0]) [get] never raises and
    never looks at the name table.  For a qualified name [prefix + name]
    that is no attribute of the [CDLL] object, not of the form [__x__] and
    free of NUL, it answers with an address exactly when the library is
    open and exports the qualified name at that address; for a qualified
    name that is an attribute of the [CDLL] object, such as [_name], it
    answers [NULL] whenever a library is open. *)
Theorem get_in_cuda_build
    (table table' : list (gmap string (list string)))
    (self : Softlink.SoftLink) (name : string) :
  Softlink.get 0 table self name = Softlink.get 0 table' self name
  /\ (forall e, Softlink.get 0 table self name <> Softlink.Raise e)
  /\ (Softlink.plain_symbol_name (Softlink.prefix self +:+ name) = true ->
      forall addr,
        Softlink.get 0 table self name
        = Softlink.Return (Softlink.symbol_ptr addr)
        <-> exists lib : gmap string Z,
              Softlink._cdll self = Some lib
              /\ lib !! (Softlink.prefix self +:+ name) = Some addr)
  /\ (Softlink.is_cdll_attribute (Softlink.prefix self +:+ name) = true ->
      Softlink._cdll self <> None ->
      Softlink.get 0 table self name = Softlink.Return Softlink.null_ptr).
Proof.
  unfold Softlink.get, Softlink.funcname, Softlink.getattr_or_stub.
  cbn [Z.eqb negb].
  destruct (Softlink._cdll self) as [lib|].
  - split; [reflexivity|]. split; [intros e; discriminate|]. split.
    + intros Hplain addr. rewrite (getattr_cdll_plain _ _ Hplain).
      destruct (lib !! (Softlink.prefix self +:+ name)) as [a|] eqn:Hs.
      * split.
        -- intros H. exists lib. split; congruence.
        -- intros (lib' & Hl & Ha). congruence.
      * split; [discriminate|]. intros (lib' & Hl & Ha). congruence.
    + intros Hattr _. unfold Softlink.getattr_cdll. now rewrite Hattr.
  - split; [reflexivity|]. split; [intros e; discriminate|]. split.
    + intros _ addr. split; [discriminate|].
      intros (lib' & Hl & _). discriminate Hl.
    + intros _ Hne. congruence.
Qed.

(** X15. [get_hipfuncname] raises exactly when the first dict that has the
    name as a key maps it to an empty tuple, and what it raises is then
    the IndexError of [[0]]; dicts after that one are not looked at. *)
Theorem get_hipfuncname_raises_iff
    (table : list (gmap string (list string))) (q : string)
    (e : Softlink.exception) :
  Softlink.get_hipfuncname table q = Softlink.Raise e
  <-> e = Softlink.IndexError "tuple index out of range"
      /\ exists before (d : gmap string (list string)) after,
           table = before ++ d :: after
           /\ (forall d' : gmap string (list string),
                 d' ∈ before -> d' !! q = None)
           /\ d !! q = Some [].
Proof.
  split.
  - induction table as [|d0 table IH]; intros H; [discriminate H|].
    cbn [Softlink.get_hipfuncname] in H.
    destruct (d0 !! q) as [[|hip others]|] eqn:Hd.
    + inversion H; subst. split; [reflexivity|].
      exists [], d0, table. repeat split; [|exact Hd].
      intros d' Hin. apply elem_of_nil in Hin. destruct Hin.
    + discriminate H.
    + destruct (IH H) as (He & before & d & after & Ht & Hno & Hempty).
      split; [exact He|].
      exists (d0 :: before), d, after. rewrite Ht. repeat split; [|exact Hempty].
      intros d' Hin. apply elem_of_cons in Hin as [->|Hin]; [exact Hd|].
      now apply Hno.
  - intros (-> & before & d & after & -> & Hno & Hempty).
    induction before as [|d0 before IH].
    + cbn [app Softlink.get_hipfuncname]. now rewrite Hempty.
    + cbn [app Softlink.get_hipfuncname].
      rewrite (Hno d0) by (apply list_elem_of_here).
      apply IH. intros d' Hin. apply Hno. now apply list_elem_of_further.
Qed.

Lemma get_hipfuncname_raises_iff_witness :
  Softlink.get_hipfuncname Scenario.broken_mappings "cusolverDnSgeqrf"
  = Softlink.Raise (Softlink.IndexError "tuple index out of range").
Proof.
  apply (proj2 (get_hipfuncname_raises_iff Scenario.broken_mappings
                  "cusolverDnSgeqrf"
                  (Softlink.IndexError "tuple index out of range"))).
  split; [reflexivity|].
  exists [ {[ "cudaMalloc"%string := ["hipMalloc"%string] ]} ],
         {[ "cusolverDnSgeqrf"%string := [] ]},
         [ {[ "cusolverDnSgeqrf"%string := ["hipsolverSgeqrf"%string] ]} ].
  split; [reflexivity|]. split.
  - intros d' Hin. apply list_elem_of_singleton in Hin. subst d'.
    vm_compute. reflexivity.
  - vm_compute. reflexivity.
Defined.

(** X16. A name [get_hipfuncname] returns comes from the input or from the
    table: it is the name given, and then no dict has it as a key, or it
    is component 0 of the value in the first dict that has the name as a
    key. *)
Theorem get_hipfuncname_returns_from_table
    (table : list (gmap string (list string))) (q r : string) :
  Softlink.get_hipfuncname table q = Softlink.Return r ->
  (r = q /\ forall d : gmap string (list string), d ∈ table -> d !! q = None)
  \/ exists before (d : gmap string (list string)) after others,
       table = before ++ d :: after
       /\ (forall d' : gmap string (list string),
             d' ∈ before -> d' !! q = None)
       /\ d !! q = Some (r :: others).
Proof.
  induction table as [|d0 table IH]; intros H.
  - inversion H; subst. left. split; [reflexivity|].
    intros d Hin. apply elem_of_nil in Hin. destruct Hin.
  - cbn [Softlink.get_hipfuncname] in H.
    destruct (d0 !! q) as [[|hip others]|] eqn:Hd.
    + discriminate H.
    + inversion H; subst. right. exists [], d0, table, others.
      repeat split; [|exact Hd].
      intros d' Hin. apply elem_of_nil in Hin. destruct Hin.
    + destruct (IH H) as [[-> Hno]|(before & d & after & others & Ht & Hno & Hv)].
      * left. split; [reflexivity|].
        intros d Hin. apply elem_of_cons in Hin as [->|Hin]; [exact Hd|].
        now apply Hno.
      * right. exists (d0 :: before), d, after, others.
        rewrite Ht. repeat split; [|exact Hv].
        intros d' Hin. apply elem_of_cons in Hin as [->|Hin]; [exact Hd|].
        now apply Hno.
Qed.

Lemma get_hipfuncname_returns_from_table_witness :
  ("hipsolverSgeqrf"%string = "cusolverDnSgeqrf"%string
   /\ forall d : gmap string (list string),
        d ∈ Sample.mappings -> d !! "cusolverDnSgeqrf"%string = None)
  \/ exists before (d : gmap string (list string)) after others,
       Sample.mappings = before ++ d :: after
       /\ (forall d' : gmap string (list string),
             d' ∈ before -> d' !! "cusolverDnSgeqrf"%string = None)
       /\ d !! "cusolverDnSgeqrf"%string
          = Some ("hipsolverSgeqrf"%string :: others).
Proof.
  apply (get_hipfuncname_returns_from_table Sample.mappings
           "cusolverDnSgeqrf" "hipsolverSgeqrf").
  vm_compute. reflexivity.
Defined.


Lemma get_in_cuda_build_witness :
  Softlink.get 0 Scenario.broken_mappings
    (Softlink.mkSoftLink None "foo_" (Some Scenario.libfoo)) "bar"
  = Softlink.Return (Softlink.symbol_ptr 8192)
  /\ Softlink.get 0 Scenario.broken_mappings
       (Softlink.mkSoftLink None "_" (Some Scenario.libfoo)) "name"
     = Softlink.Return Softlink.null_ptr.
Proof.
  split.
  - destruct (get_in_cuda_build Scenario.broken_mappings []
                (Softlink.mkSoftLink None "foo_" (Some Scenario.libfoo)) "bar")
      as (_ & _ & H & _).
    apply (proj2 (H eq_refl 8192)).
    exists Scenario.libfoo. split; [reflexivity|]. vm_compute. reflexivity.
  - destruct (get_in_cuda_build Scenario.broken_mappings []
                (Softlink.mkSoftLink None "_" (Some Scenario.libfoo)) "name")
      as (_ & _ & _ & H).
    apply H; [reflexivity | discriminate].
Defined.
